(** * s3consistency: consistency probes for S3-like object stores

    A shallow embedding of [s3consistency.py].  The boto3 client is an
    external collaborator: it is modelled as a state machine over an
    arbitrary state type, so that any network, staleness or failure
    behaviour is a particular gateway.  Probes are written as small
    command trees whose leaves are the calls the Python code makes; a
    worker thread advances one call at a time and [run_test] interleaves
    the workers according to a schedule.

    Not modelled: the free-text [logger.info] lines of the probes (only the
    result row that [run_test] logs is kept), credential loading, and the
    rounding of Python floats (percentages are exact rationals). *)

From Stdlib Require Import QArith Ascii.
From stdpp Require Import gmap strings list fin_maps.

Open Scope Z_scope.

(** ** Values, exceptions and results *)

Definition Key := string.
Definition bytes := list Byte.byte.

(** The exceptions that can travel through the script.  [NoSuchKey] is
    [client.exceptions.NoSuchKey]; [TransientError] and [FatalError] stand
    for every other failure of a client call. *)
Inductive exn := NoSuchKey | TransientError | FatalError | ZeroDivisionError.

Inductive result (A : Type) :=
| Ok (a : A)
| Raise (e : exn).
Arguments Ok {A} a.
Arguments Raise {A} e.

#[global] Instance exn_eq_dec : EqDecision exn.
Proof. solve_decision. Defined.

(** ** The client *)

(** One function per client method used by the script.  Each call may
    change the state of the service and either answers or raises.
    [list_objects_v2] answers with the ['Contents'] entry of the response,
    which boto3 leaves out when there is nothing to list. *)
Record Gateway (G : Type) := {
  put_object : string → Key → bytes → G → G * result unit;
  get_object : string → Key → G → G * result bytes;
  delete_object : string → Key → G → G * result unit;
  list_objects_v2 : string → G → G * result (option (list Key));
}.
Arguments put_object {G} _ _ _ _ _.
Arguments get_object {G} _ _ _ _.
Arguments delete_object {G} _ _ _.
Arguments list_objects_v2 {G} _ _ _.

(** What was sent to the service and what came back. *)
Inductive event :=
| EvPut (bucket : string) (key : Key) (body : bytes) (r : result unit)
| EvGet (bucket : string) (key : Key) (r : result bytes)
| EvDelete (bucket : string) (key : Key) (r : result unit)
| EvList (bucket : string) (r : result (option (list Key))).

(** The request part of an event. *)
Inductive request :=
| ReqPut (bucket : string) (key : Key) (body : bytes)
| ReqGet (bucket : string) (key : Key)
| ReqDelete (bucket : string) (key : Key)
| ReqList (bucket : string).

Definition request_of (ev : event) : request :=
  match ev with
  | EvPut b k body _ => ReqPut b k body
  | EvGet b k _ => ReqGet b k
  | EvDelete b k _ => ReqDelete b k
  | EvList b _ => ReqList b
  end.

(** Whether an answer is a failure other than [NoSuchKey]. *)
Definition fault {A} (r : result A) : option exn :=
  match r with
  | Raise NoSuchKey => None
  | Raise e => Some e
  | Ok _ => None
  end.

Definition fault_of (ev : event) : option exn :=
  match ev with
  | EvPut _ _ _ r => fault r
  | EvGet _ _ r => fault r
  | EvDelete _ _ r => fault r
  | EvList _ r => fault r
  end.

Definition is_delete (ev : event) : bool :=
  match ev with EvDelete _ _ _ => true | _ => false end.

(** ** Commands *)

(** A computation of the script: it returns, raises, draws a UUID or
    calls the client and goes on with the answer. *)
Inductive Prog (A : Type) :=
| Ret (a : A)
| Throw (e : exn)
| Uuid4 (k : Key → Prog A)
| PutObject (bucket : string) (key : Key) (body : bytes) (k : result unit → Prog A)
| GetObject (bucket : string) (key : Key) (k : result bytes → Prog A)
| DeleteObject (bucket : string) (key : Key) (k : result unit → Prog A)
| ListObjectsV2 (bucket : string) (k : result (option (list Key)) → Prog A).
Arguments Ret {A} a.
Arguments Throw {A} e.
Arguments Uuid4 {A} k.
Arguments PutObject {A} bucket key body k.
Arguments GetObject {A} bucket key k.
Arguments DeleteObject {A} bucket key k.
Arguments ListObjectsV2 {A} bucket k.

Fixpoint bind {A B} (p : Prog A) (f : A → Prog B) : Prog B :=
  match p with
  | Ret a => f a
  | Throw e => Throw e
  | Uuid4 k => Uuid4 (λ x, bind (k x) f)
  | PutObject b key body k => PutObject b key body (λ r, bind (k r) f)
  | GetObject b key k => GetObject b key (λ r, bind (k r) f)
  | DeleteObject b key k => DeleteObject b key (λ r, bind (k r) f)
  | ListObjectsV2 b k => ListObjectsV2 b (λ r, bind (k r) f)
  end.

(** [try: p  except ...: h e]. *)
Fixpoint catch {A} (p : Prog A) (h : exn → Prog A) : Prog A :=
  match p with
  | Ret a => Ret a
  | Throw e => h e
  | Uuid4 k => Uuid4 (λ x, catch (k x) h)
  | PutObject b key body k => PutObject b key body (λ r, catch (k r) h)
  | GetObject b key k => GetObject b key (λ r, catch (k r) h)
  | DeleteObject b key k => DeleteObject b key (λ r, catch (k r) h)
  | ListObjectsV2 b k => ListObjectsV2 b (λ r, catch (k r) h)
  end.

#[global] Instance Prog_ret : MRet Prog := @Ret.
#[global] Instance Prog_bind : MBind Prog := λ A B f p, bind p f.

(** An answer of the client, as Python sees it: a value or an exception
    that unwinds. *)
Definition reply {A} (r : result A) : Prog A :=
  match r with
  | Ok a => Ret a
  | Raise e => Throw e
  end.

Definition uuid4 : Prog Key := Uuid4 Ret.
Definition client_put_object (bucket : string) (key : Key) (body : bytes) : Prog unit :=
  PutObject bucket key body reply.
Definition client_get_object (bucket : string) (key : Key) : Prog bytes :=
  GetObject bucket key reply.
Definition client_delete_object (bucket : string) (key : Key) : Prog unit :=
  DeleteObject bucket key reply.
Definition client_list_objects_v2 (bucket : string) : Prog (option (list Key)) :=
  ListObjectsV2 bucket reply.

(** [except client.exceptions.NoSuchKey: h]: any other exception goes on
    unwinding. *)
Definition except_NoSuchKey {A} (p : Prog A) (h : Prog A) : Prog A :=
  catch p (λ e, match e with NoSuchKey => h | _ => Throw e end).

(** [for _ in range(n)] threading the local variables [s]. *)
Fixpoint for_range {S} (n : nat) (body : S → Prog S) (s : S) : Prog S :=
  match n with
  | O => Ret s
  | S n' => s' ← body s; for_range n' body s'
  end.

(** [for x in l]. *)
Fixpoint for_each {A} (l : list A) (body : A → Prog unit) : Prog unit :=
  match l with
  | [] => Ret tt
  | x :: l' => body x ;; for_each l' body
  end.

(** ** The probes *)

(** [bytes([0] * chunk_size)]: a negative count gives the empty list. *)
Definition zero_bytes (chunk_size : Z) : bytes :=
  replicate (Z.to_nat chunk_size) Byte.x00.

Definition len (body : bytes) : Z := Z.of_nat (length body).

Definition create_random_file (bucket : string) (chunk_size : Z) (key : option Key)
    : Prog Key :=
  key ← match key with
        | None => uuid4
        | Some key => Ret key
        end;
  let body := zero_bytes chunk_size in
  client_put_object bucket key body ;;
  Ret key.

(** [any(obj['Key'] == key for obj in response.get('Contents', []))] *)
Definition found_in (key : Key) (response : option (list Key)) : bool :=
  bool_decide (key ∈ default [] response).

Definition list_after_delete (bucket : string) (iterations chunk_size : Z) : Prog Z :=
  '(count, total) ← for_range (Z.to_nat iterations) (λ '(count, total),
      key ← create_random_file bucket chunk_size None;
      client_delete_object bucket key ;;
      response ← client_list_objects_v2 bucket;
      let found := found_in key response in
      let count := if found then count + 1 else count in
      Ret (count, total + 1)) (0, 0);
  mret count.

Definition list_after_create (bucket : string) (iterations chunk_size : Z) : Prog Z :=
  '(count, total) ← for_range (Z.to_nat iterations) (λ '(count, total),
      key ← create_random_file bucket chunk_size None;
      response ← client_list_objects_v2 bucket;
      let found := found_in key response in
      let count := if negb found then count + 1 else count in
      client_delete_object bucket key ;;
      Ret (count, total + 1)) (0, 0);
  mret count.

Definition read_after_overwrite (bucket : string) (iterations chunk_size : Z) : Prog Z :=
  '(count, total) ← for_range (Z.to_nat iterations) (λ '(count, total),
      key ← create_random_file bucket chunk_size None;
      create_random_file bucket (chunk_size + 1) (Some key) ;;
      body ← client_get_object bucket key;
      let count := if bool_decide (len body ≠ chunk_size + 1) then count + 1 else count in
      client_delete_object bucket key ;;
      Ret (count, total + 1)) (0, 0);
  mret count.

Definition read_after_delete (bucket : string) (iterations chunk_size : Z) : Prog Z :=
  '(count, total) ← for_range (Z.to_nat iterations) (λ '(count, total),
      key ← create_random_file bucket chunk_size None;
      client_delete_object bucket key ;;
      (* try / except NoSuchKey: pass / else: count += 1 *)
      count ← except_NoSuchKey
                (client_get_object bucket key ;; mret (count + 1))
                (Ret count);
      Ret (count, total + 1)) (0, 0);
  mret count.

Definition read_after_create (bucket : string) (iterations chunk_size : Z) : Prog Z :=
  '(count, total) ← for_range (Z.to_nat iterations) (λ '(count, total),
      key ← create_random_file bucket chunk_size None;
      count ← except_NoSuchKey
                (client_get_object bucket key ;; mret count)
                (Ret (count + 1));
      client_delete_object bucket key ;;
      Ret (count, total + 1)) (0, 0);
  mret count.

(** [clean_up]; the [logger.info] line written after each delete is not
    modelled. *)
Definition clean_up (bucket : string) : Prog unit :=
  response ← client_list_objects_v2 bucket;
  for_each (default [] response) (λ obj,
      client_delete_object bucket obj).

(** ** Running commands against a client *)

(** A result row: what [run_test] logs and what the summary prints.  The
    percentage is kept as a reduced fraction. *)
Record Row := {
  row_name : string;
  row_iterations : Z;
  row_errors : Z;
  row_pct : Q;
}.

(** Everything outside the interpreter that the script can change or
    observe: the service behind the client, how many UUIDs were drawn, the
    calls made so far and the rows written to the log. *)
Record World (G : Type) := {
  service : G;
  drawn : nat;
  trace : list event;
  log : list Row;
}.
Arguments service {G} _.
Arguments drawn {G} _.
Arguments trace {G} _.
Arguments log {G} _.

(** The calls made between two worlds of one execution. *)
Definition issued {G} (w w' : World G) : list event :=
  drop (length (trace w)) (trace w').

(** A worker thread of [run_test]: still inside [target], or ended with
    the value it appended or the exception that killed it. *)
Inductive thread :=
| Running (p : Prog Z)
| Stopped (r : result Z).

Record Pool (G : Type) := {
  world : World G;
  workers : list thread;
  errors : list Z;
}.
Arguments world {G} _.
Arguments workers {G} _.
Arguments errors {G} _.

Definition sum (l : list Z) : Z := foldr Z.add 0 l.

(** The count that a worker has appended to [errors], if it returned. *)
Definition returned (t : thread) : option Z :=
  match t with
  | Stopped (Ok v) => Some v
  | _ => None
  end.

Definition faulted (t : thread) : bool :=
  match t with
  | Stopped (Raise _) => true
  | _ => false
  end.

(** Python's [a / b] on integers. *)
Definition truediv (a b : Z) : result Q :=
  if decide (b = 0) then Raise ZeroDivisionError
  else Ok (inject_Z a / inject_Z b)%Q.

Definition max_chunk_size : Z := 5 * 1024 * 1024 * 1024.

Record Args := {
  iterations : Z;
  threads : Z;
  chunk_size : Z;
  endpoint : string;
  region : string;
  clean : bool;
  bucket : string;
}.

Section Semantics.
Context {G : Type}.
(** [client] is what [initialize_s3_client] returns; [uuid n] is the
    string of the [n]-th UUID drawn in the process. *)
Variable client : Gateway G.
Variable uuid : nat → Key.

Definition record (ev : event) (g : G) (w : World G) : World G :=
  {| service := g; drawn := drawn w; trace := trace w ++ [ev]; log := log w |}.

Definition draw (w : World G) : World G :=
  {| service := service w; drawn := S (drawn w); trace := trace w; log := log w |}.

Definition write_log (r : Row) (w : World G) : World G :=
  {| service := service w; drawn := drawn w; trace := trace w; log := log w ++ [r] |}.

(** One call. *)
Definition exec_step {A} (p : Prog A) (w : World G) : World G * Prog A :=
  match p with
  | Ret _ | Throw _ => (w, p)
  | Uuid4 k => (draw w, k (uuid (drawn w)))
  | PutObject b key body k =>
      let '(g, r) := put_object client b key body (service w) in
      (record (EvPut b key body r) g w, k r)
  | GetObject b key k =>
      let '(g, r) := get_object client b key (service w) in
      (record (EvGet b key r) g w, k r)
  | DeleteObject b key k =>
      let '(g, r) := delete_object client b key (service w) in
      (record (EvDelete b key r) g w, k r)
  | ListObjectsV2 b k =>
      let '(g, r) := list_objects_v2 client b (service w) in
      (record (EvList b r) g w, k r)
  end.

(** A computation run to its end by one thread on its own. *)
Fixpoint run {A} (p : Prog A) (w : World G) : World G * result A :=
  match p with
  | Ret a => (w, Ok a)
  | Throw e => (w, Raise e)
  | Uuid4 k => run (k (uuid (drawn w))) (draw w)
  | PutObject b key body k =>
      let gr := put_object client b key body (service w) in
      run (k gr.2) (record (EvPut b key body gr.2) gr.1 w)
  | GetObject b key k =>
      let gr := get_object client b key (service w) in
      run (k gr.2) (record (EvGet b key gr.2) gr.1 w)
  | DeleteObject b key k =>
      let gr := delete_object client b key (service w) in
      run (k gr.2) (record (EvDelete b key gr.2) gr.1 w)
  | ListObjectsV2 b k =>
      let gr := list_objects_v2 client b (service w) in
      run (k gr.2) (record (EvList b gr.2) gr.1 w)
  end.

(** ** Threads *)

(** One step of a worker.  [target] is [errors.append(fn(...))]: a
    worker whose probe has returned appends the count; one whose probe
    raised ends without appending. *)
Definition step_thread (t : thread) (w : World G) (errs : list Z)
    : thread * World G * list Z :=
  match t with
  | Running (Ret v) => (Stopped (Ok v), w, errs ++ [v])
  | Running (Throw e) => (Stopped (Raise e), w, errs)
  | Running p => let '(w', p') := exec_step p w in (Running p', w', errs)
  | Stopped _ => (t, w, errs)
  end.

(** The scheduler picks worker [i] for one step. *)
Definition schedule_step (s : Pool G) (i : nat) : Pool G :=
  match workers s !! i with
  | Some t =>
      let '(t', w', errs') := step_thread t (world s) (errors s) in
      {| world := w'; workers := <[i:=t']> (workers s); errors := errs' |}
  | None => s
  end.

Definition run_schedule (sched : list nat) (s : Pool G) : Pool G :=
  foldl schedule_step s sched.

(** [thread.join()]: worker [i] runs until it has ended. *)
Definition join (s : Pool G) (i : nat) : Pool G :=
  match workers s !! i with
  | Some (Running p) =>
      let '(w', r) := run p (world s) in
      {| world := w';
         workers := <[i:=Stopped r]> (workers s);
         errors := match r with
                   | Ok v => errors s ++ [v]
                   | Raise _ => errors s
                   end |}
  | _ => s
  end.

Definition join_all (s : Pool G) : Pool G :=
  foldl join s (seq 0 (length (workers s))).

(** The workers of one [run_test], started and joined.  The schedule
    lists which worker makes the next step; once it is used up the
    joins let every worker finish, so each interleaving of the workers'
    calls is the outcome of some schedule. *)
Definition run_threads (fn : string → Z → Z → Prog Z) (bucket : string)
    (iterations threads chunk_size : Z) (sched : list nat) (w : World G) : Pool G :=
  let threads := replicate (Z.to_nat threads)
                   (Running (fn bucket iterations chunk_size)) in
  join_all (run_schedule sched {| world := w; workers := threads; errors := [] |}).

Definition run_test (fn : string * (string → Z → Z → Prog Z)) (bucket : string)
    (iterations threads chunk_size : Z) (sched : list nat) (w : World G)
    : World G * result Z :=
  let s := run_threads fn.2 bucket iterations threads chunk_size sched w in
  let threads := workers s in
  let err_count := sum (errors s) in
  match truediv err_count (iterations * Z.of_nat (length threads)) with
  | Raise e => (world s, Raise e)
  | Ok q =>
      let err_pct := Qred (q * 100) in
      (write_log {| row_name := fn.1;
                    row_iterations := iterations * Z.of_nat (length threads);
                    row_errors := err_count;
                    row_pct := err_pct |} (world s),
       Ok err_count)
  end.

(** ** The campaign *)

(** Statements of [main] in sequence: an exception ends the script. *)
Definition and_then {A B} (m : World G → World G * result A)
    (f : A → World G → World G * result B) : World G → World G * result B :=
  λ w, let '(w', r) := m w in
       match r with
       | Ok a => f a w'
       | Raise e => (w', Raise e)
       end.

(** One line of the summary table. *)
Definition summary_row (args : Args) (test : string * Z) : result Row :=
  let '(test_name, error_count) := test in
  let total_iterations := iterations args * threads args in
  match truediv error_count total_iterations with
  | Raise e => Raise e
  | Ok q =>
      Ok {| row_name := test_name;
            row_iterations := total_iterations;
            row_errors := error_count;
            row_pct := Qred (q * 100) |}
  end.

Fixpoint summary (args : Args) (test_results : list (string * Z)) : result (list Row) :=
  match test_results with
  | [] => Ok []
  | test :: rest =>
      match summary_row args test with
      | Raise e => Raise e
      | Ok row =>
          match summary args rest with
          | Raise e => Raise e
          | Ok rows => Ok (row :: rows)
          end
      end
  end.

Definition probes : list (string * (string → Z → Z → Prog Z)) :=
  [("read_after_delete"%string, read_after_delete);
   ("read_after_create"%string, read_after_create);
   ("read_after_overwrite"%string, read_after_overwrite);
   ("list_after_create"%string, list_after_create);
   ("list_after_delete"%string, list_after_delete)].

(** [main] after argument parsing.  [scheds n] is the thread schedule
    of the [n]-th probe.  The result is the list of summary rows that
    are printed; clean mode prints none. *)
Definition main (args : Args) (scheds : nat → list nat) (w : World G)
    : World G * result (list Row) :=
  let chunk_size :=
    if decide (chunk_size args > max_chunk_size) then max_chunk_size
    else chunk_size args in
  let bucket_name := bucket args in
  if clean args then
    and_then (run (clean_up bucket_name)) (λ _ w, (w, Ok [])) w
  else
    let test (n : nat) (name : string) fn :=
      and_then (run_test (name, fn) bucket_name (iterations args) (threads args)
                  chunk_size (scheds n))
               (λ err w, (w, Ok (name, err))) in
    and_then (test 0%nat "read_after_delete" read_after_delete) (λ r1,
    and_then (test 1%nat "read_after_create" read_after_create) (λ r2,
    and_then (test 2%nat "read_after_overwrite" read_after_overwrite) (λ r3,
    and_then (test 3%nat "list_after_create" list_after_create) (λ r4,
    and_then (test 4%nat "list_after_delete" list_after_delete) (λ r5 w,
      (w, summary args [r1; r2; r3; r4; r5])))))) w.

End Semantics.

(** ** Particular services

    The service behind the client is not part of the repository.  The
    ones below are the mock gateways that the specification's testable
    properties speak of. *)

(** ['Contents'] is absent from the response when nothing is listed. *)
Definition contents (keys : list Key) : option (list Key) :=
  match keys with
  | [] => None
  | _ => Some keys
  end.

(** Modelled from the spec: the fully consistent mock gateway, on which
    every [get] and every [list] reflects the put or delete made just
    before.  Its listing holds all the keys of the bucket. *)
Definition consistent_gateway : Gateway (gmap Key bytes) := {|
  put_object _ key body m := (<[key:=body]> m, Ok tt);
  get_object _ key m :=
    (m, match m !! key with
        | Some body => Ok body
        | None => Raise NoSuchKey
        end);
  delete_object _ key m := (delete key m, Ok tt);
  list_objects_v2 _ m := (m, Ok (contents (map_to_list m).*1));
|}.

(** Modelled from the spec: the mock gateway that always returns stale
    data.  A deleted object leaves the listing, but [get] after [delete]
    still succeeds with the body written last. *)
Definition stale_gateway : Gateway (gmap Key bytes * gmap Key bytes) := {|
  put_object _ key body s := ((<[key:=body]> s.1, <[key:=body]> s.2), Ok tt);
  get_object _ key s :=
    (s, match s.2 !! key with
        | Some body => Ok body
        | None => Raise NoSuchKey
        end);
  delete_object _ key s := ((delete key s.1, s.2), Ok tt);
  list_objects_v2 _ s := (s, Ok (contents (map_to_list s.1).*1));
|}.

(** Modelled from the spec: the gateway of the fault injection scenario.
    It is consistent, except that its [n]-th call (counted from 0) raises
    a transient error and has no effect. *)
Definition flaky {A} (n : nat) (f : gmap Key bytes → gmap Key bytes * result A)
    (s : gmap Key bytes * nat) : (gmap Key bytes * nat) * result A :=
  if decide (s.2 = n) then ((s.1, S s.2), Raise TransientError)
  else let '(m, r) := f s.1 in ((m, S s.2), r).

Definition flaky_gateway (n : nat) : Gateway (gmap Key bytes * nat) := {|
  put_object b key body := flaky n (put_object consistent_gateway b key body);
  get_object b key := flaky n (get_object consistent_gateway b key);
  delete_object b key := flaky n (delete_object consistent_gateway b key);
  list_objects_v2 b := flaky n (list_objects_v2 consistent_gateway b);
|}.

Fixpoint zeros (n : nat) : string :=
  match n with
  | O => EmptyString
  | S n' => String "0"%char (zeros n')
  end.

(** A stand-in for the UUID strings in the examples: the [n]-th one is
    the letter k followed by [n] zeros. *)
Definition uuid_str (n : nat) : Key := String "k"%char (zeros n).

Definition empty_world {G} (g : G) : World G :=
  {| service := g; drawn := 0; trace := []; log := [] |}.

Definition default_args : Args :=
  {| iterations := 5; threads := 5; chunk_size := 1;
     endpoint := "https://objectstore.basefarm.com"; region := "us-east-1";
     clean := false; bucket := "s3consistency" |}.

(** * Vocabulary of the properties *)

(** ** Pools of workers *)

(** A computation that has no call left to make. *)
Definition is_leaf {A} (p : Prog A) : bool :=
  match p with
  | Ret _ | Throw _ => true
  | _ => false
  end.

(** The counts of the workers that returned, in the order of the
    workers. *)
Definition counts (ts : list thread) : list Z := omap returned ts.

(** A worker that will make no call. *)
Definition idle (t : thread) : Prop :=
  match t with
  | Running p => is_leaf p = true
  | Stopped _ => True
  end.

(** The row for [err_count] violations out of [iterations * threads]
    attempts. *)
Definition result_row (name : string) (iterations threads err_count : Z) : Row :=
  {| row_name := name;
     row_iterations := iterations * threads;
     row_errors := err_count;
     row_pct := Qred (inject_Z err_count / inject_Z (iterations * threads) * 100) |}.

Section PoolRule.
Context {G K : Type}.
(** What a worker knows of the world, which computations are safe for a
    worker that knows it, which knowledge two workers can hold together,
    and what a worker that has ended must satisfy. *)
Variable sat : K → World G → Prop.
Variable safe : K → Prog Z → Prop.
Variable compat : K → K → Prop.
Variable Post : result Z → Prop.

(** Worker [t] is as its knowledge [κ] says. *)
Definition thread_ok (κ : K) (w : World G) (t : thread) : Prop :=
  sat κ w ∧ match t with
            | Running p => safe κ p
            | Stopped r => Post r
            end.

(** Every worker is as it should be for some knowledge, and the
    knowledge of any two workers is compatible. *)
Definition pool_ok (s : Pool G) : Prop :=
  ∃ κs : list K,
    length κs = length (workers s)
    ∧ (∀ i κ t, κs !! i = Some κ → workers s !! i = Some t →
                thread_ok κ (world s) t)
    ∧ (∀ i j κi κj, i ≠ j → κs !! i = Some κi → κs !! j = Some κj →
                    compat κi κj).

End PoolRule.

(** ** Calls and returned values *)

Section CallsOf.
Context {G : Type}.
Variable client : Gateway G.
Variable uuid : nat → Key.

(** The calls that [run] makes. *)
Fixpoint calls {A} (p : Prog A) (w : World G) : list event :=
  match p with
  | Ret _ | Throw _ => []
  | Uuid4 k => calls (k (uuid (drawn w))) (draw w)
  | PutObject b key body k =>
      let gr := put_object client b key body (service w) in
      EvPut b key body gr.2 :: calls (k gr.2) (record (EvPut b key body gr.2) gr.1 w)
  | GetObject b key k =>
      let gr := get_object client b key (service w) in
      EvGet b key gr.2 :: calls (k gr.2) (record (EvGet b key gr.2) gr.1 w)
  | DeleteObject b key k =>
      let gr := delete_object client b key (service w) in
      EvDelete b key gr.2 :: calls (k gr.2) (record (EvDelete b key gr.2) gr.1 w)
  | ListObjectsV2 b k =>
      let gr := list_objects_v2 client b (service w) in
      EvList b gr.2 :: calls (k gr.2) (record (EvList b gr.2) gr.1 w)
  end.

End CallsOf.

(** Every value that [p] can return, whatever the client answers,
    satisfies [P].  Nothing is said of the runs that raise. *)
Fixpoint Returns {A} (P : A → Prop) (p : Prog A) : Prop :=
  match p with
  | Ret a => P a
  | Throw _ => True
  | Uuid4 k => ∀ x, Returns P (k x)
  | PutObject _ _ _ k => ∀ r, Returns P (k r)
  | GetObject _ _ k => ∀ r, Returns P (k r)
  | DeleteObject _ _ k => ∀ r, Returns P (k r)
  | ListObjectsV2 _ k => ∀ r, Returns P (k r)
  end.

(** In [p], an answer that is a failure other than [NoSuchKey] is
    raised at once, whichever call it answers. *)
Fixpoint Unwinds {A} (p : Prog A) : Prop :=
  match p with
  | Ret _ | Throw _ => True
  | Uuid4 k => ∀ x, Unwinds (k x)
  | PutObject _ _ _ k =>
      ∀ r, match fault r with Some e => k r = Throw e | None => Unwinds (k r) end
  | GetObject _ _ k =>
      ∀ r, match fault r with Some e => k r = Throw e | None => Unwinds (k r) end
  | DeleteObject _ _ k =>
      ∀ r, match fault r with Some e => k r = Throw e | None => Unwinds (k r) end
  | ListObjectsV2 _ k =>
      ∀ r, match fault r with Some e => k r = Throw e | None => Unwinds (k r) end
  end.

(** What one iteration on [key] asks of the service. *)
Definition read_after_delete_iteration (bucket : string) (chunk_size : Z) (key : Key)
    : list request :=
  [ReqPut bucket key (zero_bytes chunk_size); ReqDelete bucket key; ReqGet bucket key].

(** The requests of [n] iterations of [read_after_delete] that start in
    world [w]. *)
Definition requests_upto {G} (uuid : nat → Key) (bucket : string) (chunk_size : Z)
    (w : World G) (n : nat) : list request :=
  (uuid <$> seq (drawn w) n) ≫= read_after_delete_iteration bucket chunk_size.

(** ** Arguments and worlds *)


(** The bucket [m] once the objects under [keys] are deleted. *)
Definition delete_all (m : gmap Key bytes) (keys : list Key) : gmap Key bytes :=
  foldl (λ m key, delete key m) m keys.

(** No call and no UUID between two worlds. *)
Definition same_service {G} (w w' : World G) : Prop :=
  service w' = service w ∧ trace w' = trace w ∧ drawn w' = drawn w.

(** The script ended with an exception. *)
Definition rejected {G} (outcome : World G * result (list Row)) : Prop :=
  ∃ e, outcome.2 = Raise e.

(** ** Knowledge of a worker about the service *)



(** What a worker knows of the object under its current key. *)
Inductive kst :=
| Unknown
| Absent
| Present (body : bytes).

(** [quiet own p]: a worker that owns the key [own], in the state given
    with it, and whose key no other worker touches, gets from a consistent
    service only answers on which [p] goes on to return 0. *)
Fixpoint quiet (own : option (Key * kst)) (p : Prog Z) : Prop :=
  match p with
  | Ret v => v = 0
  | Throw _ => False
  | Uuid4 k => ∀ x, quiet (Some (x, Unknown)) (k x)
  | PutObject _ key body k =>
      (∃ st, own = Some (key, st)) ∧ quiet (Some (key, Present body)) (k (Ok tt))
  | GetObject _ key k =>
      match own with
      | Some (key', Present body) => key' = key ∧ quiet own (k (Ok body))
      | Some (key', Absent) => key' = key ∧ quiet own (k (Raise NoSuchKey))
      | _ => False
      end
  | DeleteObject _ key k =>
      (∃ st, own = Some (key, st)) ∧ quiet (Some (key, Absent)) (k (Ok tt))
  | ListObjectsV2 _ k =>
      match own with
      | Some (key, Present _) => ∀ l, key ∈ default [] l → quiet own (k (Ok l))
      | Some (key, Absent) => ∀ l, key ∉ default [] l → quiet own (k (Ok l))
      | _ => False
      end
  end.

(** The state [st] describes the entry [o] of the bucket. *)
Definition holds (st : kst) (o : option bytes) : Prop :=
  match st with
  | Unknown => True
  | Absent => o = None
  | Present body => o = Some body
  end.

(** Two workers never hold the same UUID. *)
Definition apart (κ1 κ2 : option (nat * kst)) : Prop :=
  match κ1, κ2 with
  | Some (j1, _), Some (j2, _) => j1 ≠ j2
  | _, _ => True
  end.

Section Knowledge.
Variable uuid : nat → Key.

(** A worker's knowledge: the number of the UUID it drew last and the
    state of the object under it. *)
Definition view (κ : option (nat * kst)) : option (Key * kst) :=
  match κ with
  | Some (j, st) => Some (uuid j, st)
  | None => None
  end.

(** The UUID of the worker has been drawn, and the bucket is as the
    worker believes. *)
Definition knows (κ : option (nat * kst)) (w : World (gmap Key bytes)) : Prop :=
  match κ with
  | Some (j, st) => (j < drawn w)%nat ∧ holds st (service w !! uuid j)
  | None => True
  end.

End Knowledge.

(** ** Inputs of the examples *)

(** One worker of [read_after_create] that has not started. *)
Definition single_worker : Pool (gmap Key bytes * nat) :=
  {| world := empty_world (∅, 0%nat);
     workers := [Running (read_after_create "b" 2 1)];
     errors := [] |}.

(** The default arguments with [--clean]. *)
Definition clean_args : Args :=
  {| iterations := 5; threads := 5; chunk_size := 1;
     endpoint := "https://objectstore.basefarm.com"; region := "us-east-1";
     clean := true; bucket := "s3consistency" |}.

(** A bucket that holds two objects. *)
Definition littered_world : World (gmap Key bytes) :=
  {| service := {[ "a" := [Byte.x00]; "b" := [] ]}; drawn := 0; trace := []; log := [] |}.

(** [--iterations -1 --threads 1]. *)
Definition negative_args : Args :=
  {| iterations := -1; threads := 1; chunk_size := 1;
     endpoint := "https://objectstore.basefarm.com"; region := "us-east-1";
     clean := false; bucket := "s3consistency" |}.


(** ** More vocabulary: calls, verdicts and keys of the probes *)

(** What one iteration of each of the other probes asks of the
    service. *)
Definition read_after_create_iteration (bucket : string) (chunk_size : Z) (key : Key)
    : list request :=
  [ReqPut bucket key (zero_bytes chunk_size); ReqGet bucket key; ReqDelete bucket key].

Definition read_after_overwrite_iteration (bucket : string) (chunk_size : Z) (key : Key)
    : list request :=
  [ReqPut bucket key (zero_bytes chunk_size);
   ReqPut bucket key (zero_bytes (chunk_size + 1));
   ReqGet bucket key;
   ReqDelete bucket key].

Definition list_after_create_iteration (bucket : string) (chunk_size : Z) (key : Key)
    : list request :=
  [ReqPut bucket key (zero_bytes chunk_size); ReqList bucket; ReqDelete bucket key].

Definition list_after_delete_iteration (bucket : string) (chunk_size : Z) (key : Key)
    : list request :=
  [ReqPut bucket key (zero_bytes chunk_size); ReqDelete bucket key; ReqList bucket].

(** The requests of [n] iterations that start in world [w], when one
    iteration on a key asks [iteration key]. *)
Definition iterations_from {G} (uuid : nat → Key) (iteration : Key → list request)
    (w : World G) (n : nat) : list request :=
  (uuid <$> seq (drawn w) n) ≫= iteration.

(** A get that was answered with an object. *)
Definition got (ev : event) : bool :=
  match ev with
  | EvGet _ _ (Ok _) => true
  | _ => false
  end.

(** A get that was answered with [NoSuchKey]. *)
Definition missed (ev : event) : bool :=
  match ev with
  | EvGet _ _ (Raise NoSuchKey) => true
  | _ => false
  end.

(** A get that was answered with an object whose length is not
    [chunk_size + 1]. *)
Definition wrong_length (chunk_size : Z) (ev : event) : bool :=
  match ev with
  | EvGet _ _ (Ok body) => bool_decide (len body ≠ chunk_size + 1)
  | _ => false
  end.

(** The exception a call was answered with, if any. *)
Definition raised (ev : event) : option exn :=
  let exception {A} (r : result A) :=
    match r with
    | Raise e => Some e
    | Ok _ => None
    end in
  match ev with
  | EvPut _ _ _ r => exception r
  | EvGet _ _ r => exception r
  | EvDelete _ _ r => exception r
  | EvList _ r => exception r
  end.

(** In [p] every exception of a call is raised at once, [NoSuchKey]
    included: no call of [p] is inside a [try]. *)
Fixpoint Aborts {A} (p : Prog A) : Prop :=
  match p with
  | Ret _ | Throw _ => True
  | Uuid4 k => ∀ x, Aborts (k x)
  | PutObject _ _ _ k =>
      ∀ r, match r with Raise e => k r = Throw e | Ok _ => Aborts (k r) end
  | GetObject _ _ k =>
      ∀ r, match r with Raise e => k r = Throw e | Ok _ => Aborts (k r) end
  | DeleteObject _ _ k =>
      ∀ r, match r with Raise e => k r = Throw e | Ok _ => Aborts (k r) end
  | ListObjectsV2 _ k =>
      ∀ r, match r with Raise e => k r = Throw e | Ok _ => Aborts (k r) end
  end.

(** The probes that have no [try]. *)
Definition probes_without_try : list (string * (string → Z → Z → Prog Z)) :=
  [("read_after_overwrite"%string, read_after_overwrite);
   ("list_after_create"%string, list_after_create);
   ("list_after_delete"%string, list_after_delete)].


(** [Draws b p]: a run of [p] that returns draws [b] UUIDs, and one that
    raises draws at most [b]. *)
Fixpoint Draws (b : nat) (p : Prog Z) : Prop :=
  match p with
  | Ret _ => b = 0%nat
  | Throw _ => True
  | Uuid4 k =>
      match b with
      | O => False
      | S b' => ∀ x, Draws b' (k x)
      end
  | PutObject _ _ _ k => ∀ r, Draws b (k r)
  | GetObject _ _ k => ∀ r, Draws b (k r)
  | DeleteObject _ _ k => ∀ r, Draws b (k r)
  | ListObjectsV2 _ k => ∀ r, Draws b (k r)
  end.

(** How many UUIDs a worker may still draw. *)
Definition budget_ok (b : nat) (t : thread) : Prop :=
  match t with
  | Running p => Draws b p
  | Stopped (Ok _) => b = 0%nat
  | Stopped (Raise _) => True
  end.

Definition total (bs : list nat) : nat := foldr Nat.add 0%nat bs.

(** How many of the calls [evs] satisfy [P]. *)
Definition how_many (P : event → bool) (evs : list event) : Z :=
  Z.of_nat (length (filter (λ ev, P ev = true) evs)).

(** A service on which nothing that was written is ever visible: every
    get is answered with [NoSuchKey] and every listing is empty. *)
Definition blind_gateway : Gateway unit := {|
  put_object _ _ _ g := (g, Ok tt);
  get_object _ _ g := (g, Raise NoSuchKey);
  delete_object _ _ g := (g, Ok tt);
  list_objects_v2 _ g := (g, Ok None);
|}.

(** The keys of the listing that a run of [clean_up] starts with. *)
Definition listing (evs : list event) : list Key :=
  match evs with
  | EvList _ (Ok response) :: _ => default [] response
  | _ => []
  end.

(** The workers of a pool together may still draw [total bs] UUIDs, and
    with those drawn so far that makes [c]. *)
Definition budget_inv {G} (c : nat) (s : Pool G) : Prop :=
  ∃ bs : list nat,
    length bs = length (workers s)
    ∧ (∀ i b t, bs !! i = Some b → workers s !! i = Some t → budget_ok b t)
    ∧ (drawn (world s) + total bs = c)%nat.

(** [--iterations 0]. *)
Definition zero_iterations_args : Args :=
  {| iterations := 0; threads := 5; chunk_size := 1;
     endpoint := "https://objectstore.basefarm.com"; region := "us-east-1";
     clean := false; bucket := "s3consistency" |}.






(** The listings among the calls [evs] that are [bad] for the key put
    just before them; [last] is the key put before [evs]. *)
Fixpoint listing_verdicts (bad : Key → option (list Key) → bool) (last : option Key)
    (evs : list event) : Z :=
  match evs with
  | [] => 0
  | EvPut _ key _ _ :: evs => listing_verdicts bad (Some key) evs
  | EvList _ (Ok response) :: evs =>
      match last with
      | Some key => if bad key response then 1 else 0
      | None => 0
      end + listing_verdicts bad last evs
  | _ :: evs => listing_verdicts bad last evs
  end.

(** A listing that lacks the key. *)
Definition unlisted (key : Key) (response : option (list Key)) : bool :=
  negb (found_in key response).

(** Calls whose verdicts do not depend on the key put before them. *)
Definition starts_afresh (bad : Key → option (list Key) → bool) (evs : list event)
    : Prop :=
  ∀ last1 last2, listing_verdicts bad last1 evs = listing_verdicts bad last2 evs.

(** ** config.py *)

Definition AWS_ACCESS_KEY_ID : string := "your_access_key_here".
Definition AWS_SECRET_ACCESS_KEY : string := "your_secret_key_here".
Definition S3_BUCKET_NAME : string := "your_bucket_name_here".

(** [load_s3_credentials] acting on [os.environ]. *)
Definition load_s3_credentials (environ : gmap string string) : gmap string string :=
  let environ := <["AWS_ACCESS_KEY_ID"%string := AWS_ACCESS_KEY_ID]> environ in
  let environ := <["AWS_SECRET_ACCESS_KEY"%string := AWS_SECRET_ACCESS_KEY]> environ in
  let environ := <["S3_BUCKET_NAME"%string := S3_BUCKET_NAME]> environ in
  environ.

(** * Properties *)

(** ** Stepping and running agree *)

Section Stepping.
Context {G : Type}.
Variable client : Gateway G.
Variable uuid : nat → Key.

Lemma run_exec_step {A} (p : Prog A) (w : World G) :
  run client uuid p w
  = run client uuid (exec_step client uuid p w).2 (exec_step client uuid p w).1.
Proof.
  destruct p; simpl; try done.
  - by destruct (put_object _ _ _ _ _).
  - by destruct (get_object _ _ _ _).
  - by destruct (delete_object _ _ _ _).
  - by destruct (list_objects_v2 _ _ _).
Qed.

Lemma schedule_step_length (s : Pool G) i :
  length (workers (schedule_step client uuid s i)) = length (workers s).
Proof.
  unfold schedule_step. destruct (workers s !! i) as [t|]; [|done].
  destruct (step_thread _ _ _ _ _) as [[t' w'] errs']. simpl.
  by rewrite length_insert.
Qed.

Lemma schedule_step_running (s : Pool G) i p :
  workers s !! i = Some (Running p) →
  is_leaf p = false →
  schedule_step client uuid s i
  = {| world := (exec_step client uuid p (world s)).1;
       workers := <[i:=Running (exec_step client uuid p (world s)).2]> (workers s);
       errors := errors s |}.
Proof.
  intros Hi Hp. unfold schedule_step. rewrite Hi.
  destruct p; try done; simpl.
  - by destruct (put_object _ _ _ _ _).
  - by destruct (get_object _ _ _ _).
  - by destruct (delete_object _ _ _ _).
  - by destruct (list_objects_v2 _ _ _).
Qed.

(** Joining a worker is letting it make its remaining steps. *)
Lemma join_unfold (s : Pool G) i p :
  workers s !! i = Some (Running p) →
  join client uuid s i
  = if is_leaf p then schedule_step client uuid s i
    else join client uuid (schedule_step client uuid s i) i.
Proof.
  intros Hi. destruct (is_leaf p) eqn:Hp.
  - unfold join, schedule_step. rewrite Hi. by destruct p.
  - rewrite (schedule_step_running _ _ _ Hi Hp).
    unfold join at 2. simpl.
    rewrite list_lookup_insert_eq by (by eapply lookup_lt_Some).
    unfold join at 1. rewrite Hi, run_exec_step.
    destruct (run _ _ _ _) as [w' r]. by rewrite list_insert_insert_eq.
Qed.

Lemma join_length (s : Pool G) i :
  length (workers (join client uuid s i)) = length (workers s).
Proof.
  unfold join. destruct (workers s !! i) as [[p|r]|]; try done.
  destruct (run _ _ _ _) as [w' r]. simpl. by rewrite length_insert.
Qed.

Lemma join_stopped (s : Pool G) i :
  (i < length (workers s))%nat →
  ∃ r, workers (join client uuid s i) !! i = Some (Stopped r).
Proof.
  intros Hi. unfold join.
  destruct (workers s !! i) as [[p|r]|] eqn:E.
  - destruct (run _ _ _ _) as [w' r]. simpl. exists r.
    by rewrite list_lookup_insert_eq.
  - by exists r.
  - apply lookup_ge_None in E. lia.
Qed.

Lemma join_other_stopped (s : Pool G) i j r :
  workers s !! j = Some (Stopped r) →
  workers (join client uuid s i) !! j = Some (Stopped r).
Proof.
  intros Hj. unfold join.
  destruct (workers s !! i) as [[p|r']|] eqn:E; try done.
  destruct (run _ _ _ _) as [w' r']. simpl.
  rewrite list_lookup_insert_ne; [done|]. intros ->. congruence.
Qed.

Section Invariant.
(** A property of the pool kept by every step of every worker is kept
    by a whole [run_test]. *)
Variable Inv : Pool G → Prop.
Hypothesis Inv_step : ∀ s i, Inv s → Inv (schedule_step client uuid s i).

Lemma run_schedule_inv sched s : Inv s → Inv (run_schedule client uuid sched s).
Proof.
  revert s. induction sched as [|i sched IH]; intros s Hs; [done|].
  apply IH. by apply Inv_step.
Qed.

Lemma join_inv_running p : ∀ s i,
  workers s !! i = Some (Running p) → Inv s → Inv (join client uuid s i).
Proof.
  induction p; intros s i Hi Hs; rewrite (join_unfold _ _ _ Hi); simpl;
    try (by apply Inv_step);
    pose proof (schedule_step_running s i _ Hi eq_refl) as E; simpl in E.
  - eapply H; [|by apply Inv_step]. rewrite E. simpl.
    apply list_lookup_insert_eq. by eapply lookup_lt_Some.
  - destruct (put_object _ _ _ _ _) as [g r] eqn:Eg.
    eapply H; [|by apply Inv_step]. rewrite E. simpl.
    apply list_lookup_insert_eq. by eapply lookup_lt_Some.
  - destruct (get_object _ _ _ _) as [g r] eqn:Eg.
    eapply H; [|by apply Inv_step]. rewrite E. simpl.
    apply list_lookup_insert_eq. by eapply lookup_lt_Some.
  - destruct (delete_object _ _ _ _) as [g r] eqn:Eg.
    eapply H; [|by apply Inv_step]. rewrite E. simpl.
    apply list_lookup_insert_eq. by eapply lookup_lt_Some.
  - destruct (list_objects_v2 _ _ _) as [g r] eqn:Eg.
    eapply H; [|by apply Inv_step]. rewrite E. simpl.
    apply list_lookup_insert_eq. by eapply lookup_lt_Some.
Qed.

Lemma join_inv s i : Inv s → Inv (join client uuid s i).
Proof.
  intros Hs. destruct (workers s !! i) as [[p|r]|] eqn:E.
  - by eapply join_inv_running.
  - unfold join. by rewrite E.
  - unfold join. by rewrite E.
Qed.

Lemma foldl_join_inv l s : Inv s → Inv (foldl (join client uuid) s l).
Proof.
  revert s. induction l as [|i l IH]; intros s Hs; [done|].
  apply IH. by apply join_inv.
Qed.

Lemma run_threads_inv fn bucket iterations threads chunk_size sched w :
  Inv {| world := w;
         workers := replicate (Z.to_nat threads)
                      (Running (fn bucket iterations chunk_size));
         errors := [] |} →
  Inv (run_threads client uuid fn bucket iterations threads chunk_size sched w).
Proof.
  intros Hs. unfold run_threads, join_all.
  apply foldl_join_inv. by apply run_schedule_inv.
Qed.
End Invariant.

Lemma run_schedule_length sched (s : Pool G) :
  length (workers (run_schedule client uuid sched s)) = length (workers s).
Proof.
  apply (run_schedule_inv (λ s', length (workers s') = length (workers s)));
    [|done].
  intros s' i <-. apply schedule_step_length.
Qed.

Lemma foldl_join_length l (s : Pool G) :
  length (workers (foldl (join client uuid) s l)) = length (workers s).
Proof.
  revert s. induction l as [|i l IH]; intros s; [done|].
  simpl. by rewrite IH, join_length.
Qed.

Lemma foldl_join_stopped l (s : Pool G) j :
  (j < length (workers s))%nat →
  (j ∈ l ∨ ∃ r, workers s !! j = Some (Stopped r)) →
  ∃ r, workers (foldl (join client uuid) s l) !! j = Some (Stopped r).
Proof.
  revert s. induction l as [|i l IH]; intros s Hj H; simpl.
  - destruct H as [H|H]; [|done]. by apply elem_of_nil in H.
  - apply IH; [by rewrite join_length|].
    destruct H as [H|[r H]].
    + apply elem_of_cons in H as [->|H]; [|by left].
      right. by apply join_stopped.
    + right. exists r. by apply join_other_stopped.
Qed.

(** When [run_test] has joined its threads every worker has ended. *)
Lemma run_threads_stopped fn bucket iterations threads chunk_size sched w t :
  t ∈ workers (run_threads client uuid fn bucket iterations threads chunk_size sched w) →
  ∃ r, t = Stopped r.
Proof.
  intros [j Hj]%list_elem_of_lookup. unfold run_threads, join_all in Hj.
  set (s := run_schedule _ _ _ _) in *.
  pose proof (lookup_lt_Some _ _ _ Hj) as Hlt.
  rewrite foldl_join_length in Hlt.
  destruct (foldl_join_stopped (seq 0 (length (workers s))) s j) as [r Hr].
  - lia.
  - left. apply elem_of_seq. lia.
  - exists r. congruence.
Qed.

Lemma run_threads_length fn bucket iterations threads chunk_size sched w :
  length (workers (run_threads client uuid fn bucket iterations threads chunk_size sched w))
  = Z.to_nat threads.
Proof.
  unfold run_threads, join_all.
  by rewrite foldl_join_length, run_schedule_length; simpl; rewrite length_replicate.
Qed.

End Stepping.

(** ** What the workers appended *)

Lemma counts_insert_stopped ts i p v :
  ts !! i = Some (Running p) →
  counts (<[i:=Stopped (Ok v)]> ts) ≡ₚ v :: counts ts.
Proof.
  revert i. induction ts as [|t ts IH]; intros [|i] Hi; simplify_eq/=; [done|].
  unfold counts in *. simpl. destruct (returned t); simpl.
  - rewrite (IH _ Hi). apply Permutation_swap.
  - by apply IH.
Qed.

Lemma counts_insert_same ts i t t' :
  ts !! i = Some t → returned t' = returned t →
  counts (<[i:=t']> ts) = counts ts.
Proof.
  revert i. induction ts as [|t0 ts IH]; intros [|i] Hi Ht; simplify_eq/=.
  - unfold counts. simpl. by rewrite Ht.
  - unfold counts in *. simpl. by erewrite IH.
Qed.

Lemma sum_perm l1 l2 : l1 ≡ₚ l2 → sum l1 = sum l2.
Proof. unfold sum. induction 1; simpl; lia. Qed.

Lemma sum_bounds (l : list Z) (lo hi : Z) :
  Forall (λ v, lo ≤ v ≤ hi) l →
  Z.of_nat (length l) * lo ≤ sum l ≤ Z.of_nat (length l) * hi.
Proof. unfold sum. induction 1; simpl; lia. Qed.

Section Pools.
Context {G : Type}.
Variable client : Gateway G.
Variable uuid : nat → Key.

(** The list [errors] holds the counts of the workers that returned, in
    the order in which they ended. *)
Lemma errors_counts_step (s : Pool G) i :
  errors s ≡ₚ counts (workers s) →
  errors (schedule_step client uuid s i)
  ≡ₚ counts (workers (schedule_step client uuid s i)).
Proof.
  intros Hs. unfold schedule_step.
  destruct (workers s !! i) as [t|] eqn:Hi; [|done].
  destruct t as [p|r]; simpl.
  - destruct (is_leaf p) eqn:Hp.
    + destruct p; try done; simpl.
      * rewrite (counts_insert_stopped _ _ _ _ Hi), <- Hs.
        by rewrite Permutation_app_comm.
      * by rewrite (counts_insert_same _ _ _ _ Hi).
    + pose proof (schedule_step_running client uuid s i p Hi Hp) as E.
      unfold schedule_step in E. rewrite Hi in E. simpl in E.
      rewrite E. simpl. by rewrite (counts_insert_same _ _ _ _ Hi).
  - by rewrite list_insert_id.
Qed.

Lemma run_threads_errors fn bucket iterations threads chunk_size sched w :
  let s := run_threads client uuid fn bucket iterations threads chunk_size sched w in
  errors s ≡ₚ counts (workers s).
Proof.
  apply (run_threads_inv client uuid (λ s, errors s ≡ₚ counts (workers s))).
  - intros s i. apply errors_counts_step.
  - simpl. induction (Z.to_nat threads); [done|].
    by destruct fn.
Qed.

(** ** A proof rule for pools of workers

    Each worker holds some knowledge [κ] about the world.  A step of a
    worker that is [safe] for its knowledge leaves it safe for some new
    knowledge, and keeps true what compatible workers know. *)
Section Rule.
Context {K : Type}.
Variable sat : K → World G → Prop.
Variable safe : K → Prog Z → Prop.
Variable compat : K → K → Prop.
Variable Post : result Z → Prop.

Hypothesis compat_sym : ∀ κ1 κ2, compat κ1 κ2 → compat κ2 κ1.
Hypothesis safe_ret : ∀ κ v, safe κ (Ret v) → Post (Ok v).
Hypothesis safe_throw : ∀ κ e, safe κ (Throw e) → Post (Raise e).
Hypothesis safe_step : ∀ κ p w,
  is_leaf p = false → safe κ p → sat κ w →
  ∃ κ', safe κ' (exec_step client uuid p w).2
        ∧ sat κ' (exec_step client uuid p w).1
        ∧ ∀ κ2, compat κ κ2 → sat κ2 w →
                sat κ2 (exec_step client uuid p w).1 ∧ compat κ' κ2.

Lemma pool_ok_step s i : pool_ok sat safe compat Post s →
  pool_ok sat safe compat Post (schedule_step client uuid s i).
Proof.
  intros (κs & Hlen & Hok & Hcompat).
  destruct (workers s !! i) as [t|] eqn:Hi;
    [|unfold schedule_step; rewrite Hi; by exists κs].
  destruct (lookup_lt_is_Some_2 κs i) as [κ Hκ];
    [rewrite Hlen; by eapply lookup_lt_Some|].
  destruct (Hok _ _ _ Hκ Hi) as [Hsat Ht].
  destruct t as [p|r]; [destruct (is_leaf p) eqn:Hp|].
  - (* the probe has ended: the worker appends or dies *)
    exists κs. unfold schedule_step. rewrite Hi.
    destruct p; try done; simpl; rewrite length_insert;
      (split_and!; [done| |done]); intros j κj tj Hκj Htj;
      (destruct (decide (j = i)) as [->|Hne];
       [rewrite list_lookup_insert_eq in Htj by (by eapply lookup_lt_Some);
        simplify_eq; split; eauto
       |rewrite list_lookup_insert_ne in Htj by done; eauto]).
  - (* the worker makes a call *)
    rewrite (schedule_step_running _ _ _ _ _ Hi Hp).
    destruct (safe_step κ p (world s) Hp Ht Hsat) as (κ' & Hsafe' & Hsat' & Hframe).
    exists (<[i:=κ']> κs). simpl. rewrite !length_insert.
    split_and!; [done| |].
    + intros j κj tj Hκj Htj. destruct (decide (j = i)) as [->|Hne].
      * rewrite list_lookup_insert_eq in Hκj by (by eapply lookup_lt_Some).
        rewrite list_lookup_insert_eq in Htj by (by eapply lookup_lt_Some).
        by simplify_eq.
      * rewrite list_lookup_insert_ne in Hκj by done.
        rewrite list_lookup_insert_ne in Htj by done.
        destruct (Hok _ _ _ Hκj Htj) as [Hsatj Hj].
        split; [|done]. eapply Hframe; eauto.
    + intros j1 j2 κ1 κ2 Hne H1 H2.
      destruct (decide (j1 = i)) as [->|Hne1];
        destruct (decide (j2 = i)) as [->|Hne2]; try done.
      * rewrite list_lookup_insert_eq in H1 by (by eapply lookup_lt_Some).
        rewrite list_lookup_insert_ne in H2 by done. simplify_eq.
        destruct (lookup_lt_is_Some_2 (workers s) j2) as [t2 Ht2];
          [rewrite <- Hlen; by eapply lookup_lt_Some|].
        eapply Hframe; [eauto|]. by eapply Hok.
      * rewrite list_lookup_insert_ne in H1 by done.
        rewrite list_lookup_insert_eq in H2 by (by eapply lookup_lt_Some).
        simplify_eq. apply compat_sym.
        destruct (lookup_lt_is_Some_2 (workers s) j1) as [t1 Ht1];
          [rewrite <- Hlen; by eapply lookup_lt_Some|].
        eapply Hframe; [eauto|]. by eapply Hok.
      * rewrite list_lookup_insert_ne in H1 by done.
        rewrite list_lookup_insert_ne in H2 by done. eauto.
  - unfold schedule_step. rewrite Hi. simpl. rewrite list_insert_id by done.
    by exists κs.
Qed.

(** Workers that all start safe with knowledge [κ0] all end in
    [Post]. *)
Lemma run_threads_post fn bucket iterations threads chunk_size sched w κ0 :
  sat κ0 w → compat κ0 κ0 → safe κ0 (fn bucket iterations chunk_size) →
  Forall (λ t, ∃ r, t = Stopped r ∧ Post r)
    (workers (run_threads client uuid fn bucket iterations threads chunk_size sched w)).
Proof.
  intros Hsat Hcompat Hsafe.
  assert (pool_ok sat safe compat Post (run_threads client uuid fn bucket iterations threads
                     chunk_size sched w)) as (κs & Hlen & Hok & _).
  { apply (run_threads_inv client uuid (pool_ok sat safe compat Post));
    [apply pool_ok_step|].
    exists (replicate (Z.to_nat threads) κ0). simpl.
    rewrite !length_replicate. split_and!; [done| |].
    - intros i κ t [-> _]%lookup_replicate [-> _]%lookup_replicate. by split.
    - by intros i j κi κj _ [-> _]%lookup_replicate [-> _]%lookup_replicate. }
  apply Forall_lookup. intros i t Hi.
  destruct (run_threads_stopped client uuid fn bucket iterations threads
              chunk_size sched w t) as [r ->];
    [by eapply list_elem_of_lookup_2|].
  exists r. split; [done|].
  destruct (lookup_lt_is_Some_2 κs i) as [κ Hκ];
    [rewrite Hlen; by eapply lookup_lt_Some|].
  by destruct (Hok _ _ _ Hκ Hi).
Qed.
End Rule.

End Pools.

(** ** What a computation can return *)

Lemma Returns_bind {A B} (Q : A → Prop) (P : B → Prop) (p : Prog A) (f : A → Prog B) :
  Returns Q p → (∀ a, Q a → Returns P (f a)) → Returns P (p ≫= f).
Proof.
  unfold mbind, Prog_bind. intros Hp Hf.
  induction p; simpl in *; auto.
Qed.

Lemma Returns_for_range {S} (I : nat → S → Prop) (body : S → Prog S) (n : nat) :
  (∀ i s, I i s → Returns (I (Datatypes.S i)) (body s)) →
  ∀ i s, I i s → Returns (I (n + i)%nat) (for_range n body s).
Proof.
  intros Hbody. induction n as [|n IH]; intros i s Hs; [done|].
  simpl. eapply Returns_bind; [by apply Hbody|].
  intros s' Hs'. replace (Datatypes.S (n + i)) with (n + Datatypes.S i)%nat by lia.
  by apply IH.
Qed.

(** The loop of a probe whose body adds at most one to [count]. *)
Lemma Returns_counting_loop (body : Z * Z → Prog (Z * Z)) (n : nat) :
  (∀ count total,
     Returns (λ s, count ≤ s.1 ≤ count + 1) (body (count, total))) →
  Returns (λ v, 0 ≤ v ≤ Z.of_nat n)
    ('(count, total) ← for_range n body (0, 0); mret count).
Proof.
  intros Hbody.
  eapply (Returns_bind (λ s, 0 ≤ s.1 ≤ Z.of_nat n)).
  - assert (∀ i s, 0 ≤ s.1 ≤ Z.of_nat i →
                   Returns (λ s', 0 ≤ s'.1 ≤ Z.of_nat (Datatypes.S i)) (body s)) as Hstep.
    { intros i [count total] Hi. simpl in Hi.
      specialize (Hbody count total). revert Hbody.
      generalize (body (count, total)). intros p.
      induction p; simpl; auto. lia. }
    pose proof (Returns_for_range (λ i s, 0 ≤ s.1 ≤ Z.of_nat i) body n Hstep
                  0%nat (0, 0)) as H.
    rewrite Nat.add_0_r in H. apply H. simpl. lia.
  - by intros [count total].
Qed.

Ltac returns_cases :=
  repeat match goal with
         | |- ∀ _ : result _, _ => intros [?|[]]
         | |- ∀ _ : Key, _ => intros ?
         | |- _ => progress simpl
         | |- context [found_in ?k ?r] => destruct (found_in k r)
         | |- context [bool_decide ?P] => destruct (bool_decide P)
         end;
  try lia.

Lemma list_after_delete_counts bucket iterations chunk_size :
  Returns (λ v, 0 ≤ v ≤ Z.of_nat (Z.to_nat iterations))
    (list_after_delete bucket iterations chunk_size).
Proof. apply Returns_counting_loop. intros count total. returns_cases. Qed.

Lemma list_after_create_counts bucket iterations chunk_size :
  Returns (λ v, 0 ≤ v ≤ Z.of_nat (Z.to_nat iterations))
    (list_after_create bucket iterations chunk_size).
Proof. apply Returns_counting_loop. intros count total. returns_cases. Qed.

Lemma read_after_overwrite_counts bucket iterations chunk_size :
  Returns (λ v, 0 ≤ v ≤ Z.of_nat (Z.to_nat iterations))
    (read_after_overwrite bucket iterations chunk_size).
Proof. apply Returns_counting_loop. intros count total. returns_cases. Qed.

Lemma read_after_delete_counts bucket iterations chunk_size :
  Returns (λ v, 0 ≤ v ≤ Z.of_nat (Z.to_nat iterations))
    (read_after_delete bucket iterations chunk_size).
Proof. apply Returns_counting_loop. intros count total. returns_cases. Qed.

Lemma read_after_create_counts bucket iterations chunk_size :
  Returns (λ v, 0 ≤ v ≤ Z.of_nat (Z.to_nat iterations))
    (read_after_create bucket iterations chunk_size).
Proof. apply Returns_counting_loop. intros count total. returns_cases. Qed.

Lemma probes_count fn bucket iterations chunk_size :
  fn ∈ probes →
  Returns (λ v, 0 ≤ v ≤ Z.of_nat (Z.to_nat iterations))
    (fn.2 bucket iterations chunk_size).
Proof.
  unfold probes. rewrite !elem_of_cons, elem_of_nil.
  intros [->|[->|[->|[->|[->|[]]]]]]; simpl.
  - apply read_after_delete_counts.
  - apply read_after_create_counts.
  - apply read_after_overwrite_counts.
  - apply list_after_create_counts.
  - apply list_after_delete_counts.
Qed.

(** ** The runner *)

Lemma counts_length ts : (length (counts ts) ≤ length ts)%nat.
Proof.
  unfold counts. induction ts as [|t ts IH]; [done|].
  change (omap returned (t :: ts))
    with (match returned t with
          | Some v => v :: omap returned ts
          | None => omap returned ts
          end).
  destruct (returned t); simpl; lia.
Qed.

Lemma counts_Forall (P : Z → Prop) ts :
  Forall (λ t, ∃ r, t = Stopped r ∧ match r with Ok v => P v | Raise _ => True end) ts →
  Forall P (counts ts).
Proof.
  unfold counts. induction 1 as [|t ts (r & -> & Hr) _ IH]; simpl; [done|].
  destruct r; simpl; auto.
Qed.


Section Runner.
Context {G : Type}.
Variable client : Gateway G.
Variable uuid : nat → Key.


(** With a non-zero iteration count and at least one thread the runner
    returns, whatever the client does. *)
Lemma run_test_returns fn bucket iterations threads chunk_size sched w :
  iterations ≠ 0 → 0 < threads →
  let s := run_threads client uuid fn.2 bucket iterations threads chunk_size sched w in
  run_test client uuid fn bucket iterations threads chunk_size sched w
  = (write_log (result_row fn.1 iterations threads (sum (errors s))) (world s),
     Ok (sum (errors s))).
Proof.
  intros Hi Ht s. unfold run_test, truediv. rewrite run_threads_length.
  rewrite Z2Nat.id by lia. case_decide; [lia|done].
Qed.

Lemma run_test_raises fn bucket iterations threads chunk_size sched w :
  iterations = 0 ∨ threads ≤ 0 →
  let s := run_threads client uuid fn.2 bucket iterations threads chunk_size sched w in
  run_test client uuid fn bucket iterations threads chunk_size sched w
  = (world s, Raise ZeroDivisionError).
Proof.
  intros Hz s. unfold run_test, truediv. rewrite run_threads_length.
  case_decide as Hn; [done|]. destruct Hz; [lia|].
  rewrite Z2Nat.nonpos in Hn by lia. lia.
Qed.

(** The workers of a probe each return a count between 0 and the
    iteration count, or raise. *)
Lemma run_threads_counts fn bucket iterations threads chunk_size sched w :
  fn ∈ probes →
  Forall (λ v, 0 ≤ v ≤ Z.of_nat (Z.to_nat iterations))
    (counts (workers (run_threads client uuid fn.2 bucket iterations threads
                        chunk_size sched w))).
Proof.
  intros Hfn. apply counts_Forall.
  apply (run_threads_post client uuid
           (λ (_ : unit) _, True)
           (λ _ p, Returns (λ v, 0 ≤ v ≤ Z.of_nat (Z.to_nat iterations)) p)
           (λ _ _, True)
           (λ r, match r with
                 | Ok v => 0 ≤ v ≤ Z.of_nat (Z.to_nat iterations)
                 | Raise _ => True
                 end)) with (κ0 := tt); try done.
  - intros [] p w' Hp Hsafe _. exists tt.
    split_and!; [|done|done].
    destruct p; try done; simpl in *.
    + apply Hsafe.
    + destruct (put_object _ _ _ _ _); apply Hsafe.
    + destruct (get_object _ _ _ _); apply Hsafe.
    + destruct (delete_object _ _ _ _); apply Hsafe.
    + destruct (list_objects_v2 _ _ _); apply Hsafe.
  - by apply probes_count.
Qed.

End Runner.

(** C7, for the counts the script is meant for.  For each of the five
    probes and any client, whatever it answers
    and however the workers interleave, a run with a positive iteration
    count and a positive thread count returns a violation count between 0
    and [iterations * threads], the number of attempts. *)
Theorem violations_within_attempted {G} (client : Gateway G) (uuid : nat → Key)
    fn bucket iterations threads chunk_size sched (w : World G) :
  fn ∈ probes → 0 < iterations → 0 < threads →
  ∃ w' violations,
    run_test client uuid fn bucket iterations threads chunk_size sched w
    = (w', Ok violations)
    ∧ 0 ≤ violations ≤ iterations * threads.
Proof.
  intros Hfn Hi Ht. eexists _, _. split; [apply run_test_returns; lia|].
  pose proof (run_threads_counts client uuid fn bucket iterations threads
                chunk_size sched w Hfn) as Hc.
  rewrite (sum_perm _ _ (run_threads_errors client uuid fn.2 bucket iterations
                           threads chunk_size sched w)).
  apply sum_bounds in Hc.
  pose proof (counts_length (workers (run_threads client uuid fn.2 bucket
                iterations threads chunk_size sched w))) as Hl.
  rewrite run_threads_length in Hl. nia.
Qed.

Lemma violations_within_attempted_witness :
  ∃ w' violations,
    run_test (flaky_gateway 7) uuid_str
      ("read_after_create"%string, read_after_create) "b" 3 2 1 [0; 1; 1; 0]%nat
      (empty_world (∅, 0%nat))
    = (w', Ok violations)
    ∧ 0 ≤ violations ≤ 3 * 2.
Proof.
  apply (violations_within_attempted (flaky_gateway 7) uuid_str
           ("read_after_create"%string, read_after_create));
    [unfold probes; set_solver | lia | lia].
Defined.

(** Against C7 as the specification words it: with an iteration count of
    -1, which the argument parser accepts, the run completes with 0
    violations against -1 attempts. *)
Lemma negative_attempted :
  (run_test consistent_gateway uuid_str
     ("read_after_delete"%string, read_after_delete)
     "s3consistency" (-1) 1 1 [] (empty_world ∅)).2 = Ok 0
  ∧ row_iterations
      <$> last (log (run_test consistent_gateway uuid_str
                       ("read_after_delete"%string, read_after_delete)
                       "s3consistency" (-1) 1 1 [] (empty_world ∅)).1)
    = Some (-1 * 1)
  ∧ ¬ (0 ≤ 0 ≤ -1 * 1).
Proof. split_and!; [vm_compute; reflexivity..|lia]. Qed.



(** ** The calls of one thread *)

Section Calls.
Context {G : Type}.
Variable client : Gateway G.
Variable uuid : nat → Key.

Lemma run_trace {A} (p : Prog A) (w : World G) :
  trace (run client uuid p w).1 = trace w ++ calls client uuid p w.
Proof.
  revert w. induction p; intros w; simpl; rewrite ?app_nil_r; try done;
    rewrite H; simpl; by rewrite <- ?app_assoc.
Qed.

Lemma run_issued {A} (p : Prog A) (w : World G) :
  issued w (run client uuid p w).1 = calls client uuid p w.
Proof. unfold issued. by rewrite run_trace, drop_app_length. Qed.

Lemma run_bind {A B} (p : Prog A) (f : A → Prog B) (w : World G) :
  run client uuid (p ≫= f) w
  = match (run client uuid p w).2 with
    | Ok a => run client uuid (f a) (run client uuid p w).1
    | Raise e => ((run client uuid p w).1, Raise e)
    end.
Proof.
  unfold mbind, Prog_bind. revert w.
  induction p; intros w; simpl; try done; by destruct (run _ _ (f _) _).
Qed.

Lemma calls_bind {A B} (p : Prog A) (f : A → Prog B) (w : World G) :
  calls client uuid (p ≫= f) w
  = calls client uuid p w ++ match (run client uuid p w).2 with
                 | Ok a => calls client uuid (f a) (run client uuid p w).1
                 | Raise e => []
                 end.
Proof.
  unfold mbind, Prog_bind. revert w.
  induction p; intros w; simpl; try done; by rewrite H.
Qed.

(** *** Failures unwind *)

Lemma Unwinds_bind {A B} (p : Prog A) (f : A → Prog B) :
  Unwinds p → (∀ a, Unwinds (f a)) → Unwinds (p ≫= f).
Proof.
  unfold mbind, Prog_bind. intros Hp Hf.
  induction p; simpl in *; auto; intros r; specialize (Hp r);
    (destruct (fault r); [by rewrite Hp|auto]).
Qed.

Lemma fault_not_NoSuchKey {A} (r : result A) : fault r ≠ Some NoSuchKey.
Proof. by destruct r as [|[]]. Qed.

Lemma Unwinds_except_NoSuchKey {A} (p h : Prog A) :
  Unwinds p → Unwinds h → Unwinds (except_NoSuchKey p h).
Proof.
  unfold except_NoSuchKey. intros Hp Hh.
  induction p; simpl in *; auto; try (by destruct e);
    intros r; specialize (Hp r);
    pose proof (fault_not_NoSuchKey r);
    (destruct (fault r) as [e|]; [rewrite Hp; by destruct e|auto]).
Qed.

Lemma Unwinds_call {A} (r : result A) :
  match fault r with Some e => reply r = Throw e | None => Unwinds (reply r) end.
Proof. by destruct r as [|[]]. Qed.

Lemma Unwinds_client_put_object bucket key body :
  Unwinds (client_put_object bucket key body).
Proof. intros r. apply Unwinds_call. Qed.

Lemma Unwinds_client_get_object bucket key :
  Unwinds (client_get_object bucket key).
Proof. intros r. apply Unwinds_call. Qed.

Lemma Unwinds_client_delete_object bucket key :
  Unwinds (client_delete_object bucket key).
Proof. intros r. apply Unwinds_call. Qed.

Lemma Unwinds_client_list_objects_v2 bucket :
  Unwinds (client_list_objects_v2 bucket).
Proof. intros r. apply Unwinds_call. Qed.

Lemma Unwinds_for_range {S} (body : S → Prog S) n s :
  (∀ s, Unwinds (body s)) → Unwinds (for_range n body s).
Proof.
  intros Hbody. revert s. induction n as [|n IH]; intros s; [done|].
  simpl. by apply Unwinds_bind.
Qed.

Lemma Unwinds_create_random_file bucket chunk_size key :
  Unwinds (create_random_file bucket chunk_size key).
Proof.
  unfold create_random_file. apply Unwinds_bind; [by destruct key|].
  intros k. apply Unwinds_bind; [apply Unwinds_client_put_object|done].
Qed.

Ltac unwinds :=
  repeat first
    [ apply Unwinds_for_range; intros [??]
    | apply Unwinds_create_random_file
    | apply Unwinds_client_put_object
    | apply Unwinds_client_get_object
    | apply Unwinds_client_delete_object
    | apply Unwinds_client_list_objects_v2
    | apply Unwinds_except_NoSuchKey
    | apply Unwinds_bind; [|intros; try case_match]
    | done ].

Lemma probes_unwind fn bucket iterations chunk_size :
  fn ∈ probes → Unwinds (fn.2 bucket iterations chunk_size).
Proof.
  unfold probes. rewrite !elem_of_cons, elem_of_nil.
  intros [->|[->|[->|[->|[->|[]]]]]]; simpl.
  - unfold read_after_delete. unwinds.
  - unfold read_after_create. unwinds.
  - unfold read_after_overwrite. unwinds.
  - unfold list_after_create. unwinds.
  - unfold list_after_delete. unwinds.
Qed.

(** A failing call is the last call, and its exception is the outcome. *)
Lemma Unwinds_run {A} (p : Prog A) (w : World G) pre ev post e :
  Unwinds p →
  calls client uuid p w = pre ++ ev :: post → fault_of ev = Some e →
  post = [] ∧ (run client uuid p w).2 = Raise e.
Proof.
  intros Hp Hc He. revert w pre Hp Hc.
  induction p as [a|e0|k IH|b key body k IH|b key k IH|b key k IH|b k IH];
    intros w pre Hp Hc; simpl in *;
    try (by destruct pre); [by eapply IH|..];
    match goal with
    | |- context [k ?r] =>
        specialize (Hp r); destruct pre as [|ev' pre]; simplify_eq/=;
        [rewrite He in Hp; by rewrite Hp
        |destruct (fault r) eqn:Hf;
         [rewrite Hp in *; by destruct pre|by eapply IH]]
    end.
Qed.

End Calls.

(** C3.  In each of the five probes, when a call of a worker is answered
    with a failure other than [NoSuchKey], that call is the worker's last
    one, the probe ends with that exception instead of a count, and the
    worker ends without appending anything to [errors]. *)
Theorem fault_aborts_worker {G} (client : Gateway G) (uuid : nat → Key)
    fn bucket iterations chunk_size (s : Pool G) i pre ev post e :
  fn ∈ probes →
  workers s !! i = Some (Running (fn.2 bucket iterations chunk_size)) →
  issued (world s) (world (join client uuid s i)) = pre ++ ev :: post →
  fault_of ev = Some e →
  post = []
  ∧ (run client uuid (fn.2 bucket iterations chunk_size) (world s)).2 = Raise e
  ∧ workers (join client uuid s i) !! i = Some (Stopped (Raise e))
  ∧ errors (join client uuid s i) = errors s.
Proof.
  intros Hfn Hi Hissued He. unfold join in *. rewrite Hi in *.
  pose proof (run_issued client uuid (fn.2 bucket iterations chunk_size) (world s)) as Hc.
  destruct (run _ _ _ _) as [w' r] eqn:Hrun. simpl in *.
  rewrite Hissued in Hc. symmetry in Hc.
  eapply Unwinds_run in Hc as [-> Hr]; [|by apply probes_unwind|done].
  rewrite Hrun in Hr. simpl in Hr. subst r.
  split_and!; try done.
  apply list_lookup_insert_eq. by eapply lookup_lt_Some.
Qed.

Lemma fault_aborts_worker_witness :
  @nil event = []
  ∧ (run (flaky_gateway 1) uuid_str (read_after_create "b" 2 1)
       (world single_worker)).2
    = Raise TransientError
  ∧ workers (join (flaky_gateway 1) uuid_str single_worker 0) !! 0%nat
    = Some (Stopped (Raise TransientError))
  ∧ errors (join (flaky_gateway 1) uuid_str single_worker 0) = errors single_worker.
Proof.
  apply (fault_aborts_worker (flaky_gateway 1) uuid_str
           ("read_after_create"%string, read_after_create) "b" 2 1 single_worker 0
           [EvPut "b" "k" [Byte.x00] (Ok tt)]
           (EvGet "b" "k" (Raise TransientError)) [] TransientError).
  - unfold probes. set_solver.
  - reflexivity.
  - vm_compute. reflexivity.
  - reflexivity.
Defined.

(** ** The calls of [read_after_delete] *)

Section ReadAfterDelete.
Context {G : Type}.
Variable client : Gateway G.
Variable uuid : nat → Key.
Variable bucket : string.
Variable chunk_size : Z.

Let body : Z * Z → Prog (Z * Z) := λ '(count, total),
    key ← create_random_file bucket chunk_size None;
    client_delete_object bucket key ;;
    count ← except_NoSuchKey
              (client_get_object bucket key ;; mret (count + 1))
              (Ret count);
    Ret (count, total + 1).

Lemma read_after_delete_body s w :
  match (run client uuid (body s) w).2 with
  | Ok _ =>
      request_of <$> calls client uuid (body s) w
      = read_after_delete_iteration bucket chunk_size (uuid (drawn w))
      ∧ drawn (run client uuid (body s) w).1 = S (drawn w)
  | Raise _ =>
      request_of <$> calls client uuid (body s) w
      `prefix_of` read_after_delete_iteration bucket chunk_size (uuid (drawn w))
  end.
Proof.
  destruct s as [count total]. unfold read_after_delete_iteration. simpl.
  destruct (put_object _ _ _ _ _) as [g1 [[]|e1]]; simpl;
    [|by eexists [_; _]].
  destruct (delete_object _ _ _ _) as [g2 [[]|e2]]; simpl;
    [|by eexists [_]].
  destruct (get_object _ _ _ _) as [g3 [b3|[]]]; simpl;
    try done; by exists [].
Qed.

Lemma requests_upto_S (w w1 : World G) n :
  drawn w1 = S (drawn w) →
  requests_upto uuid bucket chunk_size w (S n)
  = read_after_delete_iteration bucket chunk_size (uuid (drawn w))
    ++ requests_upto uuid bucket chunk_size w1 n.
Proof. intros Hd. unfold requests_upto. by rewrite Hd. Qed.

Lemma read_after_delete_loop n : ∀ s w,
  match (run client uuid (for_range n body s) w).2 with
  | Ok _ => request_of <$> calls client uuid (for_range n body s) w = requests_upto uuid bucket chunk_size w n
  | Raise _ =>
      request_of <$> calls client uuid (for_range n body s) w
      `prefix_of` requests_upto uuid bucket chunk_size w n
  end.
Proof.
  induction n as [|n IH]; intros s w; [done|].
  change (for_range (S n) body s) with (body s ≫= for_range n body).
  rewrite run_bind, calls_bind, fmap_app.
  pose proof (read_after_delete_body s w) as Hb.
  destruct (run client uuid (body s) w) as [w1 [s1|e1]] eqn:Hrun;
    cbn [fst snd] in *.
  - destruct Hb as [-> Hd]. rewrite (requests_upto_S w w1 n Hd).
    specialize (IH s1 w1).
    destruct (run client uuid (for_range n body s1) w1) as [w2 [s2|e2]];
      cbn [fst snd] in *.
    + by rewrite IH.
    + by apply prefix_app.
  - rewrite fmap_nil, app_nil_r.
    destruct Hb as [k Hk]. exists (k ++ requests_upto uuid bucket chunk_size (draw w) n).
    rewrite (requests_upto_S w (draw w) n eq_refl), Hk.
    by rewrite <- app_assoc.
Qed.

End ReadAfterDelete.

(** C10.  A [read_after_delete] worker that returns has asked, for each
    iteration in turn, to put the fresh key, to delete it and to get it,
    and nothing else: one delete per key, and no call on the key after
    the get, whether or not the get counted as a violation.  A worker
    that raises has made an initial part of these calls. *)
Theorem read_after_delete_calls {G} (client : Gateway G) (uuid : nat → Key)
    bucket iterations chunk_size (w : World G) :
  let w' := (run client uuid (read_after_delete bucket iterations chunk_size) w).1 in
  let expected := requests_upto uuid bucket chunk_size w (Z.to_nat iterations) in
  match (run client uuid (read_after_delete bucket iterations chunk_size) w).2 with
  | Ok _ => request_of <$> issued w w' = expected
  | Raise _ => request_of <$> issued w w' `prefix_of` expected
  end.
Proof.
  intros w' expected. unfold w'. rewrite run_issued.
  unfold read_after_delete. rewrite run_bind, calls_bind.
  pose proof (read_after_delete_loop client uuid bucket chunk_size
                (Z.to_nat iterations) (0, 0) w) as Hl.
  cbv zeta in Hl.
  destruct (run client uuid (for_range _ _ _) w) as [w1 [[count total]|e]];
    simpl in *; by rewrite app_nil_r.
Qed.

(** The same calls in the branch that counts a violation: the stale
    service answers the get, and the iteration ends there. *)
Example read_after_delete_violation :
  run stale_gateway uuid_str (read_after_delete "b" 1 1) (empty_world (∅, ∅))
  = ({| service := (∅, {[ "k" := [Byte.x00] ]});
        drawn := 1;
        trace := [EvPut "b" "k" [Byte.x00] (Ok tt);
                  EvDelete "b" "k" (Ok tt);
                  EvGet "b" "k" (Ok [Byte.x00])];
        log := [] |},
     Ok 1).
Proof. vm_compute. reflexivity. Qed.

(** ** The five probes in sequence *)

Section Campaign.
Context {G : Type}.
Variable client : Gateway G.
Variable uuid : nat → Key.

Lemma summary_row_ok args name v :
  iterations args ≠ 0 → 0 < threads args →
  summary_row args (name, v)
  = Ok (result_row name (iterations args) (threads args) v).
Proof.
  intros Hi Ht. unfold summary_row, truediv. case_decide; [nia|done].
Qed.

(** A property of the world kept by the [run_test] of every probe is kept
    by the campaign. *)
Lemma main_campaign_inv (P : World G → Prop) args scheds w :
  clean args = false →
  (∀ fn c sched w0,
     fn ∈ probes → P w0 →
     P (run_test client uuid fn (bucket args) (iterations args) (threads args)
          c sched w0).1) →
  P w → P (main client uuid args scheds w).1.
Proof.
  intros Hclean Hrun Hw. unfold main. rewrite Hclean.
  set (c := if decide (chunk_size args > max_chunk_size) then _ else _).
  unfold and_then.
  repeat match goal with
         | |- context [run_test client uuid ?fn ?b ?i ?t c ?sched ?w0] =>
             let H := fresh "H" in
             let w1 := fresh "w" in
             let r := fresh "r" in
             assert (fn ∈ probes) as H
               by (unfold probes; rewrite !elem_of_cons; tauto);
             apply (λ H, Hrun fn c sched w0 H Hw) in H; clear Hw; rename H into Hw;
             destruct (run_test client uuid fn b i t c sched w0) as [w1 [r|?]];
             simpl in Hw; [|done]
         end.
  done.
Qed.


End Campaign.



(** ** Clean mode *)

Lemma default_contents keys : default [] (contents keys) = keys.
Proof. by destruct keys. Qed.

Lemma delete_all_lookup keys : ∀ (m : gmap Key bytes) key,
  delete_all m keys !! key = if decide (key ∈ keys) then None else m !! key.
Proof.
  unfold delete_all.
  induction keys as [|k keys IH]; intros m key; cbn [foldl].
  - case_decide as Hin; [by apply elem_of_nil in Hin|done].
  - rewrite IH. destruct (decide (key = k)) as [->|Hne].
    + rewrite lookup_delete_eq.
      rewrite (decide_True (P := k ∈ k :: keys)) by (apply elem_of_cons; by left).
      by case_decide.
    + rewrite lookup_delete_ne by done.
      destruct (decide (key ∈ keys)) as [Hin|Hin].
      * by rewrite decide_True by (apply elem_of_cons; by right).
      * rewrite decide_False; [done|].
        by intros [?|?]%elem_of_cons.
Qed.

Lemma delete_all_listed (m : gmap Key bytes) :
  delete_all m (map_to_list m).*1 = ∅.
Proof.
  apply map_eq. intros key. rewrite delete_all_lookup, lookup_empty.
  case_decide as Hin; [done|].
  destruct (m !! key) as [body|] eqn:Hm; [|done].
  exfalso. apply Hin. apply list_elem_of_fmap. exists (key, body).
  split; [done|]. by apply elem_of_map_to_list.
Qed.

Section Clean.
Variable uuid : nat → Key.

Lemma run_delete_each bucket keys : ∀ w,
  run consistent_gateway uuid (for_each keys (client_delete_object bucket)) w
  = ({| service := delete_all (service w) keys;
        drawn := drawn w;
        trace := trace w ++ ((λ key, EvDelete bucket key (Ok tt)) <$> keys);
        log := log w |},
     Ok tt).
Proof.
  induction keys as [|key keys IH]; intros w.
  - simpl. rewrite app_nil_r. by destruct w.
  - change (for_each (key :: keys) (client_delete_object bucket))
      with (client_delete_object bucket key ≫= λ _,
            for_each keys (client_delete_object bucket)).
    rewrite run_bind. simpl. rewrite IH. simpl.
    by rewrite <- app_assoc.
Qed.

(** Cleaning lists the bucket once and deletes every key listed. *)
Lemma run_clean_up bucket w :
  run consistent_gateway uuid (clean_up bucket) w
  = ({| service := ∅;
        drawn := drawn w;
        trace := trace w
                 ++ EvList bucket (Ok (contents (map_to_list (service w)).*1))
                 :: ((λ key, EvDelete bucket key (Ok tt))
                       <$> (map_to_list (service w)).*1);
        log := log w |},
     Ok tt).
Proof.
  unfold clean_up. rewrite run_bind. simpl.
  rewrite default_contents, run_delete_each. simpl.
  by rewrite delete_all_listed, <- app_assoc.
Qed.

Lemma main_clean args scheds w :
  clean args = true →
  main consistent_gateway uuid args scheds w
  = ((run consistent_gateway uuid (clean_up (bucket args)) w).1, Ok []).
Proof.
  intros Hclean. unfold main, and_then. rewrite Hclean.
  by rewrite run_clean_up.
Qed.

End Clean.

(** C8.  On a consistent service, whatever the bucket holds, clean mode
    deletes each object once and leaves the bucket empty; run again at
    once, it leaves the bucket empty and deletes nothing. *)
Theorem clean_twice (uuid : nat → Key) args scheds scheds' (w : World (gmap Key bytes)) :
  clean args = true →
  ∃ w1 w2,
    main consistent_gateway uuid args scheds w = (w1, Ok [])
    ∧ main consistent_gateway uuid args scheds' w1 = (w2, Ok [])
    ∧ service w1 = ∅
    ∧ length (filter (λ ev, is_delete ev = true) (issued w w1)) = size (service w)
    ∧ service w2 = ∅
    ∧ filter (λ ev, is_delete ev = true) (issued w1 w2) = [].
Proof.
  intros Hclean. eexists _, _.
  split; [by apply main_clean|]. split; [by apply main_clean|].
  rewrite !run_clean_up. unfold issued. simpl.
  rewrite !drop_app_length, map_to_list_empty. split_and!; try done.
  rewrite filter_cons_False by (simpl; congruence).
  rewrite <- length_map_to_list.
  generalize (map_to_list (service w)). intros l.
  induction l as [|[key body] l IH]; [done|].
  rewrite fmap_cons, fmap_cons, filter_cons_True by done. simpl. by f_equal.
Qed.

Lemma clean_twice_witness :
  ∃ w1 w2,
    main consistent_gateway uuid_str clean_args (λ _, []) littered_world = (w1, Ok [])
    ∧ main consistent_gateway uuid_str clean_args (λ _, []) w1 = (w2, Ok [])
    ∧ service w1 = ∅
    ∧ length (filter (λ ev, is_delete ev = true) (issued littered_world w1))
      = size (service littered_world)
    ∧ service w2 = ∅
    ∧ filter (λ ev, is_delete ev = true) (issued w1 w2) = [].
Proof.
  apply (clean_twice uuid_str clean_args (λ _, []) (λ _, []) littered_world).
  reflexivity.
Defined.

(** ** Non-positive counts *)

Lemma probes_idle fn bucket iterations chunk_size :
  fn ∈ probes → iterations ≤ 0 →
  fn.2 bucket iterations chunk_size = Ret 0.
Proof.
  unfold probes. rewrite !elem_of_cons, elem_of_nil. intros Hfn Hi.
  destruct Hfn as [->|[->|[->|[->|[->|[]]]]]]; simpl;
    [unfold read_after_delete|unfold read_after_create
    |unfold read_after_overwrite|unfold list_after_create
    |unfold list_after_delete];
    by rewrite Z2Nat.nonpos by done.
Qed.

Section Idle.
Context {G : Type}.
Variable client : Gateway G.
Variable uuid : nat → Key.

Lemma idle_step (w : World G) (s : Pool G) i :
  same_service w (world s) ∧ Forall idle (workers s) →
  same_service w (world (schedule_step client uuid s i))
  ∧ Forall idle (workers (schedule_step client uuid s i)).
Proof.
  intros [Hw Hidle]. unfold schedule_step.
  destruct (workers s !! i) as [t|] eqn:Hi; [|done].
  pose proof (Forall_lookup_1 _ _ _ _ Hidle Hi) as Ht.
  destruct t as [[]|r]; try done; simpl;
    (split; [done|]); by apply Forall_insert.
Qed.

Lemma run_test_idle fn bucket iterations threads chunk_size sched (w w0 : World G) :
  fn ∈ probes → iterations ≤ 0 ∨ threads ≤ 0 →
  same_service w w0 →
  same_service w
    (run_test client uuid fn bucket iterations threads chunk_size sched w0).1.
Proof.
  intros Hfn Hz Hw.
  assert (same_service w
            (world (run_threads client uuid fn.2 bucket iterations threads
                      chunk_size sched w0))) as Hs.
  { apply (run_threads_inv client uuid
             (λ s, same_service w (world s) ∧ Forall idle (workers s))).
    - intros s i. apply idle_step.
    - split; [done|]. simpl. destruct Hz as [Hi|Ht].
      + rewrite probes_idle by done. by apply Forall_replicate.
      + by rewrite Z2Nat.nonpos by done. }
  unfold run_test. destruct (truediv _ _); by simpl.
Qed.

End Idle.

Section NegativeIterations.
Context {G : Type}.
Variable client : Gateway G.
Variable uuid : nat → Key.

(** With a negative iteration count every worker returns 0 at once. *)
Lemma run_test_negative_iterations fn bucket iterations threads chunk_size sched
    (w : World G) :
  fn ∈ probes → iterations < 0 → 0 < threads →
  run_test client uuid fn bucket iterations threads chunk_size sched w
  = (write_log (result_row fn.1 iterations threads 0)
       (world (run_threads client uuid fn.2 bucket iterations threads
                 chunk_size sched w)),
     Ok 0).
Proof.
  intros Hfn Hi Ht. rewrite run_test_returns by lia. cbv zeta.
  assert (sum (errors (run_threads client uuid fn.2 bucket iterations threads
                         chunk_size sched w)) = 0) as ->; [|done].
  rewrite (sum_perm _ _ (run_threads_errors client uuid fn.2 bucket iterations
                           threads chunk_size sched w)).
  pose proof (run_threads_counts client uuid fn bucket iterations threads
                chunk_size sched w Hfn) as Hc.
  apply sum_bounds in Hc. rewrite Z2Nat.nonpos in Hc by lia. lia.
Qed.

Lemma main_negative_iterations args scheds (w : World G) :
  clean args = false → iterations args < 0 → 0 < threads args →
  ∃ w',
    main client uuid args scheds w
    = (w', Ok [result_row "read_after_delete" (iterations args) (threads args) 0;
               result_row "read_after_create" (iterations args) (threads args) 0;
               result_row "read_after_overwrite" (iterations args) (threads args) 0;
               result_row "list_after_create" (iterations args) (threads args) 0;
               result_row "list_after_delete" (iterations args) (threads args) 0]).
Proof.
  intros Hclean Hi Ht. unfold main. rewrite Hclean.
  set (c := if decide (chunk_size args > max_chunk_size) then _ else _).
  unfold and_then.
  repeat match goal with
         | |- context [run_test client uuid ?fn ?b ?i ?t c ?sched ?w0] =>
             rewrite (run_test_negative_iterations fn b i t c sched w0)
               by (first [lia | unfold probes; rewrite !elem_of_cons; tauto])
         end.
  cbn [fst snd summary]. rewrite !summary_row_ok by lia.
  by eexists.
Qed.

End NegativeIterations.

(** C4, as the code has it.  The script does not check the counts.
    Without [--clean], a run whose iteration count or thread count is not
    positive makes no call to the service and draws no key; and a
    negative iteration count with a positive thread count is accepted:
    the five probes run and the five rows are printed, each with 0
    errors. *)
Theorem nonpositive_counts_make_no_calls {G} (client : Gateway G) (uuid : nat → Key)
    args scheds (w : World G) :
  clean args = false →
  iterations args ≤ 0 ∨ threads args ≤ 0 →
  issued w (main client uuid args scheds w).1 = []
  ∧ service (main client uuid args scheds w).1 = service w
  ∧ drawn (main client uuid args scheds w).1 = drawn w
  ∧ (iterations args < 0 → 0 < threads args →
     ∃ w',
       main client uuid args scheds w
       = (w', Ok [result_row "read_after_delete" (iterations args) (threads args) 0;
                  result_row "read_after_create" (iterations args) (threads args) 0;
                  result_row "read_after_overwrite" (iterations args) (threads args) 0;
                  result_row "list_after_create" (iterations args) (threads args) 0;
                  result_row "list_after_delete" (iterations args) (threads args) 0])).
Proof.
  intros Hclean Hz.
  assert (same_service w (main client uuid args scheds w).1) as (Hs & Ht & Hd).
  { apply (main_campaign_inv client uuid (same_service w)); [done| |done].
    intros fn c sched w0 Hfn Hw0. by apply run_test_idle. }
  split_and!; try done.
  - unfold issued. by rewrite Ht, drop_all.
  - intros Hi Hth. by apply main_negative_iterations.
Qed.

Lemma nonpositive_counts_make_no_calls_witness :
  issued (empty_world ∅)
    (main consistent_gateway uuid_str negative_args (λ _, []) (empty_world ∅)).1 = []
  ∧ service (main consistent_gateway uuid_str negative_args (λ _, []) (empty_world ∅)).1
    = service (empty_world ∅)
  ∧ drawn (main consistent_gateway uuid_str negative_args (λ _, []) (empty_world ∅)).1
    = drawn (empty_world (∅ : gmap Key bytes))
  ∧ (iterations negative_args < 0 → 0 < threads negative_args →
     ∃ w',
       main consistent_gateway uuid_str negative_args (λ _, []) (empty_world ∅)
       = (w', Ok [result_row "read_after_delete" (iterations negative_args)
                    (threads negative_args) 0;
                  result_row "read_after_create" (iterations negative_args)
                    (threads negative_args) 0;
                  result_row "read_after_overwrite" (iterations negative_args)
                    (threads negative_args) 0;
                  result_row "list_after_create" (iterations negative_args)
                    (threads negative_args) 0;
                  result_row "list_after_delete" (iterations negative_args)
                    (threads negative_args) 0])).
Proof.
  apply (nonpositive_counts_make_no_calls consistent_gateway uuid_str negative_args).
  - reflexivity.
  - left. simpl. lia.
Defined.

(** Against C4 as the specification words it: an iteration count of -1
    is not turned away, the five probes run and the summary is printed. *)
Lemma negative_iterations_accepted :
  ¬ rejected (main consistent_gateway uuid_str negative_args (λ _, []) (empty_world ∅))
  ∧ row_name <$> log (main consistent_gateway uuid_str negative_args (λ _, [])
                        (empty_world ∅)).1
    = ["read_after_delete"; "read_after_create"; "read_after_overwrite";
       "list_after_create"; "list_after_delete"]%string
  ∧ (main consistent_gateway uuid_str negative_args (λ _, []) (empty_world ∅)).2
    = Ok [result_row "read_after_delete" (-1) 1 0;
          result_row "read_after_create" (-1) 1 0;
          result_row "read_after_overwrite" (-1) 1 0;
          result_row "list_after_create" (-1) 1 0;
          result_row "list_after_delete" (-1) 1 0].
Proof.
  split_and!.
  - intros [e He]. vm_compute in He. discriminate.
  - vm_compute. reflexivity.
  - vm_compute. reflexivity.
Qed.

(** ** Workers that die *)




(** ** A service with stale reads *)


Section Stale.
Variable uuid : nat → Key.



End Stale.

Lemma counts_all_equal ts v :
  Forall (λ t, ∃ r, t = Stopped r ∧ r = Ok v) ts →
  counts ts = replicate (length ts) v.
Proof.
  unfold counts. induction 1 as [|t ts (r & -> & ->) _ IH]; [done|].
  simpl. f_equal. apply IH.
Qed.

Lemma sum_replicate n v : sum (replicate n v) = Z.of_nat n * v.
Proof. unfold sum. induction n as [|n IH]; simpl; lia. Qed.




(** ** A consistent service *)

Lemma len_zero_bytes chunk_size : 0 ≤ chunk_size → len (zero_bytes chunk_size) = chunk_size.
Proof. intros H. unfold len, zero_bytes. rewrite length_replicate. lia. Qed.

Lemma read_after_delete_quiet bucket iterations chunk_size own :
  quiet own (read_after_delete bucket iterations chunk_size).
Proof.
  unfold read_after_delete. generalize 0 at 2 as total. revert own.
  induction (Z.to_nat iterations) as [|n IH]; intros own total; [done|].
  simpl. intros x. split_and!; eauto.
Qed.

Lemma read_after_create_quiet bucket iterations chunk_size own :
  quiet own (read_after_create bucket iterations chunk_size).
Proof.
  unfold read_after_create. generalize 0 at 2 as total. revert own.
  induction (Z.to_nat iterations) as [|n IH]; intros own total; [done|].
  simpl. intros x. split_and!; eauto.
Qed.

Lemma read_after_overwrite_quiet bucket iterations chunk_size own :
  0 ≤ chunk_size →
  quiet own (read_after_overwrite bucket iterations chunk_size).
Proof.
  intros Hc. unfold read_after_overwrite. generalize 0 at 2 as total. revert own.
  induction (Z.to_nat iterations) as [|n IH]; intros own total; [done|].
  simpl. intros x. split_and!; eauto.
  rewrite bool_decide_eq_false_2 by (rewrite len_zero_bytes by lia; auto).
  apply IH.
Qed.

Lemma list_after_create_quiet bucket iterations chunk_size own :
  quiet own (list_after_create bucket iterations chunk_size).
Proof.
  unfold list_after_create. generalize 0 at 2 as total. revert own.
  induction (Z.to_nat iterations) as [|n IH]; intros own total; [done|].
  simpl. intros x. split_and!; eauto. intros l Hl.
  unfold found_in. rewrite bool_decide_eq_true_2 by done. simpl.
  split; eauto.
Qed.

Lemma list_after_delete_quiet bucket iterations chunk_size own :
  quiet own (list_after_delete bucket iterations chunk_size).
Proof.
  unfold list_after_delete. generalize 0 at 2 as total. revert own.
  induction (Z.to_nat iterations) as [|n IH]; intros own total; [done|].
  simpl. intros x. split_and!; eauto. intros l Hl.
  unfold found_in. rewrite bool_decide_eq_false_2 by done.
  apply IH.
Qed.

Lemma probes_quiet fn bucket iterations chunk_size :
  fn ∈ probes → 0 ≤ chunk_size →
  quiet None (fn.2 bucket iterations chunk_size).
Proof.
  unfold probes. rewrite !elem_of_cons, elem_of_nil.
  intros [->|[->|[->|[->|[->|[]]]]]] Hc; simpl.
  - apply read_after_delete_quiet.
  - apply read_after_create_quiet.
  - by apply read_after_overwrite_quiet.
  - apply list_after_create_quiet.
  - apply list_after_delete_quiet.
Qed.

Lemma listed_iff (m : gmap Key bytes) key :
  key ∈ default [] (contents (map_to_list m).*1) ↔ is_Some (m !! key).
Proof.
  rewrite default_contents, list_elem_of_fmap. split.
  - intros ([k body] & -> & Hin). apply elem_of_map_to_list in Hin. by eexists.
  - intros [body Hm]. exists (key, body). split; [done|].
    by apply elem_of_map_to_list.
Qed.

Section Consistent.
Variable uuid : nat → Key.
Hypothesis uuid_inj : Inj (=) (=) uuid.

Lemma apart_sym κ1 κ2 : apart κ1 κ2 → apart κ2 κ1.
Proof. destruct κ1 as [[j1 st1]|], κ2 as [[j2 st2]|]; simpl; auto. Qed.

Lemma view_Some κ key st :
  view uuid κ = Some (key, st) → ∃ j, κ = Some (j, st) ∧ uuid j = key.
Proof. destruct κ as [[j st']|]; simpl; [|done]. intros [= <- <-]. by exists j. Qed.

(** A call on the key of one worker leaves what the others know. *)
Lemma knows_frame j st κ2 (w w' : World (gmap Key bytes)) :
  apart (Some (j, st)) κ2 → knows uuid κ2 w →
  drawn w' = drawn w →
  (∀ key, key ≠ uuid j → service w' !! key = service w !! key) →
  knows uuid κ2 w'.
Proof.
  destruct κ2 as [[j2 st2]|]; simpl; [|done].
  intros Hne [Hlt Hst] Hd Hs. rewrite Hd. split; [done|].
  rewrite Hs; [done|]. intros Heq%uuid_inj. done.
Qed.

Lemma quiet_step κ p w :
  is_leaf p = false → quiet (view uuid κ) p → knows uuid κ w →
  ∃ κ', quiet (view uuid κ') (exec_step consistent_gateway uuid p w).2
        ∧ knows uuid κ' (exec_step consistent_gateway uuid p w).1
        ∧ ∀ κ2, apart κ κ2 → knows uuid κ2 w →
                knows uuid κ2 (exec_step consistent_gateway uuid p w).1 ∧ apart κ' κ2.
Proof.
  intros Hp Hq Hk. destruct p; try done; simpl in *.
  - (* uuid4 *)
    exists (Some (drawn w, Unknown)). split_and!.
    + apply Hq.
    + simpl. split; [lia|done].
    + intros [[j2 st2]|] _ H2; simpl in *; [|done].
      destruct H2 as [Hlt Hst]. split_and!; [lia|done|lia].
  - (* put_object *)
    destruct Hq as [[st Hv] Hq]. apply view_Some in Hv as (j & -> & <-).
    destruct Hk as [Hlt _].
    exists (Some (j, Present body)). split_and!.
    + exact Hq.
    + simpl. split; [done|]. by rewrite lookup_insert_eq.
    + intros κ2 Ha H2. split; [|by destruct κ2 as [[??]|]].
      eapply knows_frame; [done..|].
      intros key' Hne. simpl. by rewrite lookup_insert_ne.
  - (* get_object *)
    destruct κ as [[j st]|]; simpl in *; [|done].
    destruct Hk as [Hlt Hst].
    destruct st as [| |body]; [done| |]; destruct Hq as [<- Hq]; simpl in Hst;
      rewrite Hst; [exists (Some (j, Absent))|exists (Some (j, Present body))];
      (split_and!; [exact Hq|by split|]);
      intros κ2 Ha H2; (split; [|done]);
      by destruct κ2 as [[??]|].
  - (* delete_object *)
    destruct Hq as [[st Hv] Hq]. apply view_Some in Hv as (j & -> & <-).
    destruct Hk as [Hlt _].
    exists (Some (j, Absent)). split_and!.
    + exact Hq.
    + simpl. split; [done|]. by rewrite lookup_delete_eq.
    + intros κ2 Ha H2. split; [|by destruct κ2 as [[??]|]].
      eapply knows_frame; [done..|].
      intros key' Hne. simpl. by rewrite lookup_delete_ne.
  - (* list_objects_v2 *)
    destruct κ as [[j st]|]; simpl in *; [|done].
    destruct Hk as [Hlt Hst].
    destruct st as [| |body]; [done| |]; simpl in Hst;
      [exists (Some (j, Absent))|exists (Some (j, Present body))];
      (split_and!;
       [apply Hq; rewrite listed_iff, Hst; first [by intros [??]|by eexists]
       |by split
       |intros κ2 Ha H2; (split; [|done]); by destruct κ2 as [[??]|]]).
Qed.

Lemma consistent_workers fn bucket iterations threads chunk_size sched w :
  fn ∈ probes → 0 ≤ chunk_size →
  Forall (λ t, ∃ r, t = Stopped r ∧ r = Ok 0)
    (workers (run_threads consistent_gateway uuid fn.2 bucket iterations
                threads chunk_size sched w)).
Proof.
  intros Hfn Hc.
  apply (run_threads_post consistent_gateway uuid (knows uuid)
           (λ κ p, quiet (view uuid κ) p) apart (λ r, r = Ok 0))
    with (κ0 := None); try done.
  - apply apart_sym.
  - intros κ v Hv. simpl in Hv. by subst.
  - apply quiet_step.
  - by apply probes_quiet.
Qed.

End Consistent.


Lemma zeros_inj : Inj (=) (=) zeros.
Proof.
  intros n. induction n as [|n IH]; intros [|m] H; simplify_eq/=; [done|].
  f_equal. by apply IH.
Qed.

Lemma uuid_str_inj : Inj (=) (=) uuid_str.
Proof. intros n m [= H]. by apply zeros_inj. Qed.


(** * Further properties of the probes *)

(** ** The calls of the other probes *)

Section Loops.
Context {G : Type}.
Variable client : Gateway G.
Variable uuid : nat → Key.

Lemma iterations_from_S (iteration : Key → list request) (w w1 : World G) n :
  drawn w1 = S (drawn w) →
  iterations_from uuid iteration w (S n)
  = iteration (uuid (drawn w)) ++ iterations_from uuid iteration w1 n.
Proof. intros Hd. unfold iterations_from. by rewrite Hd. Qed.

(** A loop whose body draws one key and asks [iteration] of it. *)
Lemma loop_requests {St} (body : St → Prog St) (iteration : Key → list request) :
  (∀ s w,
     match (run client uuid (body s) w).2 with
     | Ok _ =>
         request_of <$> calls client uuid (body s) w = iteration (uuid (drawn w))
         ∧ drawn (run client uuid (body s) w).1 = S (drawn w)
     | Raise _ =>
         request_of <$> calls client uuid (body s) w
         `prefix_of` iteration (uuid (drawn w))
     end) →
  ∀ n s w,
    match (run client uuid (for_range n body s) w).2 with
    | Ok _ =>
        request_of <$> calls client uuid (for_range n body s) w
        = iterations_from uuid iteration w n
        ∧ drawn (run client uuid (for_range n body s) w).1 = (drawn w + n)%nat
    | Raise _ =>
        request_of <$> calls client uuid (for_range n body s) w
        `prefix_of` iterations_from uuid iteration w n
    end.
Proof.
  intros Hbody. induction n as [|n IH]; intros s w.
  { simpl. split; [done|lia]. }
  change (for_range (S n) body s) with (body s ≫= for_range n body).
  rewrite run_bind, calls_bind, fmap_app.
  specialize (Hbody s w).
  destruct (run client uuid (body s) w) as [w1 [s1|e1]] eqn:Hrun;
    cbn [fst snd] in *.
  - destruct Hbody as [-> Hd]. rewrite (iterations_from_S iteration w w1 n Hd).
    specialize (IH s1 w1).
    destruct (run client uuid (for_range n body s1) w1) as [w2 [s2|e2]];
      cbn [fst snd] in *.
    + destruct IH as [-> ->]. split; [done|lia].
    + by apply prefix_app.
  - rewrite fmap_nil, app_nil_r.
    destruct Hbody as [k Hk]. exists (k ++ iterations_from uuid iteration (draw w) n).
    rewrite (iterations_from_S iteration w (draw w) n eq_refl), Hk.
    by rewrite <- app_assoc.
Qed.

Lemma how_many_app P evs1 evs2 :
  how_many P (evs1 ++ evs2) = how_many P evs1 + how_many P evs2.
Proof. unfold how_many. rewrite filter_app, length_app. lia. Qed.

(** A loop whose body adds to its counter the number of its calls that
    satisfy [P]. *)
Lemma loop_count {St} (P : event → bool) (count : St → Z) (body : St → Prog St) :
  (∀ s w,
     match (run client uuid (body s) w).2 with
     | Ok s1 => count s1 = count s + how_many P (calls client uuid (body s) w)
     | Raise _ => True
     end) →
  ∀ n s w,
    match (run client uuid (for_range n body s) w).2 with
    | Ok s' => count s' = count s + how_many P (calls client uuid (for_range n body s) w)
    | Raise _ => True
    end.
Proof.
  intros Hbody. induction n as [|n IH]; intros s w.
  { simpl. unfold how_many. simpl. lia. }
  change (for_range (S n) body s) with (body s ≫= for_range n body).
  rewrite run_bind, calls_bind, how_many_app.
  specialize (Hbody s w).
  destruct (run client uuid (body s) w) as [w1 [s1|e1]]; cbn [fst snd] in *;
    [|done].
  specialize (IH s1 w1).
  destruct (run client uuid (for_range n body s1) w1) as [w2 [s2|e2]];
    cbn [fst snd] in *; [lia|done].
Qed.

End Loops.

(** Runs the calls of a loop body one after the other. *)
Ltac answer_calls :=
  repeat (simpl;
          match goal with
          | |- context [put_object ?c ?b ?k ?bd ?g] =>
              destruct (put_object c b k bd g) as [? [[]|?]]
          | |- context [get_object ?c ?b ?k ?g] =>
              destruct (get_object c b k g) as [? [?|[]]]
          | |- context [delete_object ?c ?b ?k ?g] =>
              destruct (delete_object c b k g) as [? [[]|?]]
          | |- context [list_objects_v2 ?c ?b ?g] =>
              destruct (list_objects_v2 c b g) as [? [?|?]]
          end);
  simpl.

Ltac close_requests :=
  first [ done | split; reflexivity | eexists; reflexivity ].

(** The shape shared by the statements below. *)
Ltac probe_requests iteration :=
  intros; rewrite run_issued;
  match goal with
  | |- context [run ?client ?uuid (?probe ?bucket ?iterations ?chunk_size) ?w] =>
      unfold probe; rewrite run_bind, calls_bind;
      match goal with
      | |- context [for_range ?n ?body ?s] =>
          let H := fresh "H" in
          assert (∀ s0 w0,
                    match (run client uuid (body s0) w0).2 with
                    | Ok _ =>
                        request_of <$> calls client uuid (body s0) w0
                        = iteration (uuid (drawn w0))
                        ∧ drawn (run client uuid (body s0) w0).1 = S (drawn w0)
                    | Raise _ =>
                        request_of <$> calls client uuid (body s0) w0
                        `prefix_of` iteration (uuid (drawn w0))
                    end) as H
            by (intros [??] ?;
                cbv delta [read_after_create_iteration read_after_overwrite_iteration
                           list_after_create_iteration list_after_delete_iteration];
                answer_calls; close_requests);
          pose proof (loop_requests client uuid body iteration H n s w) as Hl;
          destruct (run client uuid (for_range n body s) w) as [? [[??]|?]];
          simpl in *; by rewrite app_nil_r
      end
  end.

(** A [read_after_create] worker that returns has asked, for each
    iteration in turn, to put the fresh key, to get it and to delete it:
    the object is deleted whether or not the get found it.  It has drawn
    one UUID per iteration. *)
Theorem read_after_create_calls {G} (client : Gateway G) (uuid : nat → Key)
    bucket iterations chunk_size (w : World G) :
  match (run client uuid (read_after_create bucket iterations chunk_size) w).2 with
  | Ok _ =>
      request_of <$> issued w
        (run client uuid (read_after_create bucket iterations chunk_size) w).1
      = iterations_from uuid (read_after_create_iteration bucket chunk_size) w
          (Z.to_nat iterations)
      ∧ drawn (run client uuid (read_after_create bucket iterations chunk_size) w).1
        = (drawn w + Z.to_nat iterations)%nat
  | Raise _ =>
      request_of <$> issued w
        (run client uuid (read_after_create bucket iterations chunk_size) w).1
      `prefix_of` iterations_from uuid (read_after_create_iteration bucket chunk_size) w
                    (Z.to_nat iterations)
  end.
Proof. probe_requests (read_after_create_iteration bucket chunk_size). Qed.

(** A [read_after_overwrite] worker that returns has asked, for each
    iteration in turn, to put the fresh key with [chunk_size] bytes, to
    put it again with one byte more, to get it and to delete it. *)
Theorem read_after_overwrite_calls {G} (client : Gateway G) (uuid : nat → Key)
    bucket iterations chunk_size (w : World G) :
  match (run client uuid (read_after_overwrite bucket iterations chunk_size) w).2 with
  | Ok _ =>
      request_of <$> issued w
        (run client uuid (read_after_overwrite bucket iterations chunk_size) w).1
      = iterations_from uuid (read_after_overwrite_iteration bucket chunk_size) w
          (Z.to_nat iterations)
      ∧ drawn (run client uuid (read_after_overwrite bucket iterations chunk_size) w).1
        = (drawn w + Z.to_nat iterations)%nat
  | Raise _ =>
      request_of <$> issued w
        (run client uuid (read_after_overwrite bucket iterations chunk_size) w).1
      `prefix_of` iterations_from uuid (read_after_overwrite_iteration bucket chunk_size) w
                    (Z.to_nat iterations)
  end.
Proof. probe_requests (read_after_overwrite_iteration bucket chunk_size). Qed.

(** A [list_after_create] worker that returns has asked, for each
    iteration in turn, to put the fresh key, to list the bucket and to
    delete the key, whatever the listing showed. *)
Theorem list_after_create_calls {G} (client : Gateway G) (uuid : nat → Key)
    bucket iterations chunk_size (w : World G) :
  match (run client uuid (list_after_create bucket iterations chunk_size) w).2 with
  | Ok _ =>
      request_of <$> issued w
        (run client uuid (list_after_create bucket iterations chunk_size) w).1
      = iterations_from uuid (list_after_create_iteration bucket chunk_size) w
          (Z.to_nat iterations)
      ∧ drawn (run client uuid (list_after_create bucket iterations chunk_size) w).1
        = (drawn w + Z.to_nat iterations)%nat
  | Raise _ =>
      request_of <$> issued w
        (run client uuid (list_after_create bucket iterations chunk_size) w).1
      `prefix_of` iterations_from uuid (list_after_create_iteration bucket chunk_size) w
                    (Z.to_nat iterations)
  end.
Proof. probe_requests (list_after_create_iteration bucket chunk_size). Qed.

(** A [list_after_delete] worker that returns has asked, for each
    iteration in turn, to put the fresh key, to delete it and to list
    the bucket; it never deletes a key twice. *)
Theorem list_after_delete_calls {G} (client : Gateway G) (uuid : nat → Key)
    bucket iterations chunk_size (w : World G) :
  match (run client uuid (list_after_delete bucket iterations chunk_size) w).2 with
  | Ok _ =>
      request_of <$> issued w
        (run client uuid (list_after_delete bucket iterations chunk_size) w).1
      = iterations_from uuid (list_after_delete_iteration bucket chunk_size) w
          (Z.to_nat iterations)
      ∧ drawn (run client uuid (list_after_delete bucket iterations chunk_size) w).1
        = (drawn w + Z.to_nat iterations)%nat
  | Raise _ =>
      request_of <$> issued w
        (run client uuid (list_after_delete bucket iterations chunk_size) w).1
      `prefix_of` iterations_from uuid (list_after_delete_iteration bucket chunk_size) w
                    (Z.to_nat iterations)
  end.
Proof. probe_requests (list_after_delete_iteration bucket chunk_size). Qed.

(** ** What the counts count *)

Ltac probe_count P :=
  intros; rewrite run_issued;
  match goal with
  | |- context [run ?client ?uuid (?probe ?bucket ?iterations ?chunk_size) ?w] =>
      unfold probe; rewrite run_bind, calls_bind;
      match goal with
      | |- context [for_range ?n ?body ?s] =>
          let H := fresh "H" in
          assert (∀ s0 w0,
                    match (run client uuid (body s0) w0).2 with
                    | Ok s1 => s1.1 = s0.1 + how_many P (calls client uuid (body s0) w0)
                    | Raise _ => True
                    end) as H
            by (intros [??] ?; unfold how_many; answer_calls;
                rewrite ?filter_cons_True, ?filter_cons_False, ?filter_nil by done;
                try done; simpl; try case_bool_decide;
                rewrite ?filter_cons_True, ?filter_cons_False, ?filter_nil
                  by (simpl; rewrite ?bool_decide_eq_true;
                      first [done | congruence | tauto]);
                simpl; lia);
          pose proof (loop_count client uuid P fst body H n s w) as Hl;
          destruct (run client uuid (for_range n body s) w) as [? [[??]|?]];
          simpl in *; [rewrite app_nil_r; lia|done]
      end
  end.

(** The count that [read_after_delete] returns is the number of its gets
    that were answered with an object. *)
Theorem read_after_delete_verdicts {G} (client : Gateway G) (uuid : nat → Key)
    bucket iterations chunk_size (w : World G) :
  match (run client uuid (read_after_delete bucket iterations chunk_size) w).2 with
  | Ok count =>
      count = how_many got
                (issued w (run client uuid
                             (read_after_delete bucket iterations chunk_size) w).1)
  | Raise _ => True
  end.
Proof. probe_count got. Qed.

(** The count that [read_after_create] returns is the number of its gets
    that were answered with [NoSuchKey]. *)
Theorem read_after_create_verdicts {G} (client : Gateway G) (uuid : nat → Key)
    bucket iterations chunk_size (w : World G) :
  match (run client uuid (read_after_create bucket iterations chunk_size) w).2 with
  | Ok count =>
      count = how_many missed
                (issued w (run client uuid
                             (read_after_create bucket iterations chunk_size) w).1)
  | Raise _ => True
  end.
Proof. probe_count missed. Qed.

(** The count that [read_after_overwrite] returns is the number of its
    gets that were answered with an object that is not [chunk_size + 1]
    bytes long. *)
Theorem read_after_overwrite_verdicts {G} (client : Gateway G) (uuid : nat → Key)
    bucket iterations chunk_size (w : World G) :
  match (run client uuid (read_after_overwrite bucket iterations chunk_size) w).2 with
  | Ok count =>
      count = how_many (wrong_length chunk_size)
                (issued w (run client uuid
                             (read_after_overwrite bucket iterations chunk_size) w).1)
  | Raise _ => True
  end.
Proof. probe_count (wrong_length chunk_size). Qed.

(** ** Probes without a [try] *)

Lemma Aborts_bind {A B} (p : Prog A) (f : A → Prog B) :
  Aborts p → (∀ a, Aborts (f a)) → Aborts (p ≫= f).
Proof.
  unfold mbind, Prog_bind. intros Hp Hf.
  induction p; simpl in *; auto; intros r; specialize (Hp r);
    (destruct r; [auto|by rewrite Hp]).
Qed.

Lemma Aborts_reply {A} (r : result A) :
  match r with Raise e => reply r = Throw e | Ok _ => Aborts (reply r) end.
Proof. by destruct r. Qed.

Lemma Aborts_client_put_object bucket key body :
  Aborts (client_put_object bucket key body).
Proof. intros r. apply Aborts_reply. Qed.

Lemma Aborts_client_get_object bucket key : Aborts (client_get_object bucket key).
Proof. intros r. apply Aborts_reply. Qed.

Lemma Aborts_client_delete_object bucket key :
  Aborts (client_delete_object bucket key).
Proof. intros r. apply Aborts_reply. Qed.

Lemma Aborts_client_list_objects_v2 bucket : Aborts (client_list_objects_v2 bucket).
Proof. intros r. apply Aborts_reply. Qed.

Lemma Aborts_for_range {St} (body : St → Prog St) n s :
  (∀ s, Aborts (body s)) → Aborts (for_range n body s).
Proof.
  intros Hbody. revert s. induction n as [|n IH]; intros s; [done|].
  simpl. by apply Aborts_bind.
Qed.

Lemma Aborts_create_random_file bucket chunk_size key :
  Aborts (create_random_file bucket chunk_size key).
Proof.
  unfold create_random_file. apply Aborts_bind; [by destruct key|].
  intros k. apply Aborts_bind; [apply Aborts_client_put_object|done].
Qed.

Ltac aborts :=
  repeat first
    [ apply Aborts_for_range; intros [??]
    | apply Aborts_create_random_file
    | apply Aborts_client_put_object
    | apply Aborts_client_get_object
    | apply Aborts_client_delete_object
    | apply Aborts_client_list_objects_v2
    | apply Aborts_bind; [|intros; try case_match]
    | done ].

Lemma probes_without_try_abort fn bucket iterations chunk_size :
  fn ∈ probes_without_try → Aborts (fn.2 bucket iterations chunk_size).
Proof.
  unfold probes_without_try. rewrite !elem_of_cons, elem_of_nil.
  intros [->|[->|[->|[]]]]; simpl.
  - unfold read_after_overwrite. aborts.
  - unfold list_after_create. aborts.
  - unfold list_after_delete. aborts.
Qed.

Lemma Aborts_run {G} (client : Gateway G) (uuid : nat → Key) {A} (p : Prog A)
    (w : World G) pre ev post e :
  Aborts p →
  calls client uuid p w = pre ++ ev :: post → raised ev = Some e →
  post = [] ∧ (run client uuid p w).2 = Raise e.
Proof.
  intros Hp Hc He. revert w pre Hp Hc.
  induction p as [a|e0|k IH|b key body k IH|b key k IH|b key k IH|b k IH];
    intros w pre Hp Hc; simpl in *;
    try (by destruct pre); [by eapply IH|..];
    match goal with
    | |- context [k ?r] =>
        specialize (Hp r); destruct pre as [|ev' pre]; simplify_eq/=;
        [destruct r; simplify_eq/=; by rewrite Hp
        |destruct r;
         [by eapply IH|rewrite Hp in *; by destruct pre]]
    end.
Qed.

(** In [read_after_overwrite], [list_after_create] and
    [list_after_delete] no call is inside a [try]: a call answered with
    any exception, [NoSuchKey] on the get included, is the worker's last
    call, and the probe ends with that exception instead of a count; the
    calls that would have followed, the delete of the object among them,
    are not made. *)
Theorem any_exception_aborts {G} (client : Gateway G) (uuid : nat → Key)
    fn bucket iterations chunk_size (w : World G) pre ev post e :
  fn ∈ probes_without_try →
  issued w (run client uuid (fn.2 bucket iterations chunk_size) w).1
  = pre ++ ev :: post →
  raised ev = Some e →
  post = []
  ∧ (run client uuid (fn.2 bucket iterations chunk_size) w).2 = Raise e.
Proof.
  intros Hfn Hissued He. rewrite run_issued in Hissued.
  eapply Aborts_run; [by apply probes_without_try_abort|done..].
Qed.

Lemma any_exception_aborts_witness :
  @nil event = []
  ∧ (run blind_gateway uuid_str (read_after_overwrite "b" 2 1) (empty_world tt)).2
    = Raise NoSuchKey.
Proof.
  apply (any_exception_aborts blind_gateway uuid_str
           ("read_after_overwrite"%string, read_after_overwrite) "b" 2 1
           (empty_world tt)
           [EvPut "b" "k" [Byte.x00] (Ok tt);
            EvPut "b" "k" [Byte.x00; Byte.x00] (Ok tt)]
           (EvGet "b" "k" (Raise NoSuchKey)) [] NoSuchKey).
  - unfold probes_without_try. rewrite !elem_of_cons. tauto.
  - vm_compute. reflexivity.
  - reflexivity.
Defined.

(** ** A negative chunk size *)




Section Settles.
Variable uuid : nat → Key.
Hypothesis uuid_inj : Inj (=) (=) uuid.



End Settles.



(** ** The campaign as a whole *)

Section WholeCampaign.
Context {G : Type}.
Variable client : Gateway G.
Variable uuid : nat → Key.

Lemma exec_step_log {A} (p : Prog A) (w : World G) :
  log (exec_step client uuid p w).1 = log w.
Proof.
  destruct p; simpl; try done.
  - by destruct (put_object _ _ _ _ _).
  - by destruct (get_object _ _ _ _).
  - by destruct (delete_object _ _ _ _).
  - by destruct (list_objects_v2 _ _ _).
Qed.

(** The workers write nothing to the log. *)
Lemma run_threads_log fn bucket iterations threads chunk_size sched w :
  log (world (run_threads client uuid fn bucket iterations threads chunk_size sched w))
  = log w.
Proof.
  apply (run_threads_inv client uuid (λ s, log (world s) = log w)); [|done].
  intros s i Hs. unfold schedule_step.
  destruct (workers s !! i) as [[p|r]|] eqn:Hi; try done.
  destruct (is_leaf p) eqn:Hp.
  - by destruct p.
  - pose proof (schedule_step_running client uuid s i p Hi Hp) as E.
    unfold schedule_step in E. rewrite Hi in E. rewrite E. simpl.
    by rewrite exec_step_log.
Qed.

End WholeCampaign.

(** Without [--clean], an iteration count of 0 or a thread count that is
    not positive ends the script with [ZeroDivisionError], raised by the
    percentage of the first [run_test]: no row is logged and no summary
    is printed. *)
Theorem zero_attempts_divide_by_zero {G} (client : Gateway G) (uuid : nat → Key)
    args scheds (w : World G) :
  clean args = false →
  iterations args = 0 ∨ threads args ≤ 0 →
  (main client uuid args scheds w).2 = Raise ZeroDivisionError
  ∧ log (main client uuid args scheds w).1 = log w.
Proof.
  intros Hclean Hz. unfold main, and_then. rewrite Hclean.
  rewrite run_test_raises by done. cbv zeta. simpl.
  by rewrite run_threads_log.
Qed.

Lemma zero_attempts_divide_by_zero_witness :
  (main consistent_gateway uuid_str zero_iterations_args (λ _, []) (empty_world ∅)).2
  = Raise ZeroDivisionError
  ∧ log (main consistent_gateway uuid_str zero_iterations_args (λ _, [])
           (empty_world ∅)).1
    = log (empty_world (∅ : gmap Key bytes)).
Proof.
  apply (zero_attempts_divide_by_zero consistent_gateway uuid_str zero_iterations_args).
  - reflexivity.
  - left. reflexivity.
Defined.

(** With a non-zero iteration count and a positive thread count, the
    rows of the summary table are exactly the rows that the five
    [run_test] calls wrote to the log, in the same order: the attempts
    computed from [len(threads)] and from [args.threads] agree. *)
Theorem summary_repeats_log {G} (client : Gateway G) (uuid : nat → Key)
    args scheds (w : World G) :
  clean args = false → iterations args ≠ 0 → 0 < threads args →
  ∃ w' rows,
    main client uuid args scheds w = (w', Ok rows)
    ∧ log w' = log w ++ rows
    ∧ length rows = 5%nat.
Proof.
  intros Hclean Hi Ht. unfold main. rewrite Hclean.
  set (c := if decide (chunk_size args > max_chunk_size) then _ else _).
  unfold and_then.
  repeat match goal with
         | |- context [run_test client uuid ?fn ?b ?i ?t c ?sched ?w0] =>
             rewrite (run_test_returns client uuid fn b i t c sched w0 Hi Ht);
             cbv zeta
         end.
  cbn [fst snd summary]. rewrite !summary_row_ok by done.
  eexists _, _. split; [reflexivity|]. split; [|done].
  repeat (cbn [log write_log]; rewrite run_threads_log).
  by rewrite <- !app_assoc.
Qed.

Lemma summary_repeats_log_witness :
  ∃ w' rows,
    main (flaky_gateway 3) uuid_str default_args (λ _, [0; 1; 2; 3; 4]%nat)
      (empty_world (∅, 0%nat)) = (w', Ok rows)
    ∧ log w' = log (empty_world ((∅ : gmap Key bytes), 0%nat)) ++ rows
    ∧ length rows = 5%nat.
Proof.
  apply (summary_repeats_log (flaky_gateway 3) uuid_str default_args);
    [reflexivity | simpl; lia | simpl; lia].
Defined.

(** The whole campaign against a fully consistent service, with positive
    counts, a chunk size that is not negative and distinct UUIDs: the
    five rows are printed in the order of the script, each with
    [iterations * threads] attempts, 0 errors and 0 percent, however the
    workers of each probe interleave. *)
Theorem campaign_on_consistent_service (uuid : nat → Key) args scheds
    (w : World (gmap Key bytes)) :
  Inj (=) (=) uuid →
  clean args = false →
  0 < iterations args → 0 < threads args → 0 ≤ chunk_size args →
  ∃ w',
    main consistent_gateway uuid args scheds w
    = (w', Ok [result_row "read_after_delete" (iterations args) (threads args) 0;
               result_row "read_after_create" (iterations args) (threads args) 0;
               result_row "read_after_overwrite" (iterations args) (threads args) 0;
               result_row "list_after_create" (iterations args) (threads args) 0;
               result_row "list_after_delete" (iterations args) (threads args) 0])
    ∧ row_pct (result_row "read_after_delete" (iterations args) (threads args) 0) = 0%Q.
Proof.
  intros Hinj Hclean Hi Ht Hc. unfold main. rewrite Hclean.
  set (c := if decide (chunk_size args > max_chunk_size) then _ else _).
  assert (0 ≤ c) as Hc'.
  { unfold c, max_chunk_size. case_decide; lia. }
  assert (∀ fn sched w0,
            fn ∈ probes →
            run_test consistent_gateway uuid fn (bucket args) (iterations args)
              (threads args) c sched w0
            = (write_log (result_row fn.1 (iterations args) (threads args) 0)
                 (world (run_threads consistent_gateway uuid fn.2 (bucket args)
                           (iterations args) (threads args) c sched w0)),
               Ok 0)) as Hrun.
  { intros fn sched w0 Hfn. rewrite run_test_returns by lia. cbv zeta.
    rewrite (sum_perm _ _ (run_threads_errors consistent_gateway uuid fn.2
                             (bucket args) (iterations args) (threads args) c
                             sched w0)).
    rewrite (counts_all_equal _ _ (consistent_workers uuid Hinj fn (bucket args)
                                     (iterations args) (threads args) c sched w0
                                     Hfn Hc')).
    by rewrite sum_replicate, Z.mul_0_r. }
  unfold and_then.
  repeat match goal with
         | |- context [run_test consistent_gateway uuid ?fn ?b ?i ?t c ?sched ?w0] =>
             rewrite (Hrun fn sched w0)
               by (unfold probes; rewrite !elem_of_cons; tauto)
         end.
  cbn [fst snd summary]. rewrite !summary_row_ok by lia.
  eexists. split; [reflexivity|].
  unfold result_row. simpl. by rewrite (Qred_complete _ 0).
Qed.

Lemma campaign_on_consistent_service_witness :
  ∃ w',
    main consistent_gateway uuid_str default_args (λ _, [4; 0; 3; 3; 1]%nat)
      (empty_world ∅)
    = (w', Ok [result_row "read_after_delete" (iterations default_args)
                 (threads default_args) 0;
               result_row "read_after_create" (iterations default_args)
                 (threads default_args) 0;
               result_row "read_after_overwrite" (iterations default_args)
                 (threads default_args) 0;
               result_row "list_after_create" (iterations default_args)
                 (threads default_args) 0;
               result_row "list_after_delete" (iterations default_args)
                 (threads default_args) 0])
    ∧ row_pct (result_row "read_after_delete" (iterations default_args)
                 (threads default_args) 0) = 0%Q.
Proof.
  apply (campaign_on_consistent_service uuid_str default_args
           (λ _, [4; 0; 3; 3; 1]%nat) (empty_world ∅));
    [apply uuid_str_inj | reflexivity | simpl; lia..].
Defined.

(** ** Cleaning against any service *)

Section CleanAny.
Context {G : Type}.
Variable client : Gateway G.
Variable uuid : nat → Key.

Lemma for_each_delete_requests bucket keys : ∀ w,
  drawn (run client uuid (for_each keys (client_delete_object bucket)) w).1 = drawn w
  ∧ match (run client uuid (for_each keys (client_delete_object bucket)) w).2 with
    | Ok _ =>
        request_of <$> calls client uuid (for_each keys (client_delete_object bucket)) w
        = ReqDelete bucket <$> keys
    | Raise _ =>
        request_of <$> calls client uuid (for_each keys (client_delete_object bucket)) w
        `prefix_of` ReqDelete bucket <$> keys
    end.
Proof.
  induction keys as [|key keys IH]; intros w; [done|].
  change (for_each (key :: keys) (client_delete_object bucket))
    with (client_delete_object bucket key ≫= λ _,
          for_each keys (client_delete_object bucket)).
  rewrite run_bind, calls_bind. simpl.
  destruct (delete_object client bucket key (service w)) as [g [[]|e]]; simpl.
  - specialize (IH (record (EvDelete bucket key (Ok ())) g w)).
    destruct IH as [Hd IH]. split; [done|].
    destruct (run _ _ _ _) as [w' [[]|e]]; simpl in *.
    + f_equal. exact IH.
    + apply prefix_cons. exact IH.
  - split; [done|]. by exists (ReqDelete bucket <$> keys).
Qed.

End CleanAny.

(** Against any service, [clean_up] lists the bucket once and then asks
    to delete the keys of that listing, in the order of the listing and
    nothing else; it draws no UUID.  When it returns, every key of the
    listing has been asked for; when a call fails, the calls made are an
    initial part of these and the keys that follow are left in the
    bucket. *)
Theorem clean_up_calls {G} (client : Gateway G) (uuid : nat → Key) bucket (w : World G) :
  drawn (run client uuid (clean_up bucket) w).1 = drawn w
  ∧ match (run client uuid (clean_up bucket) w).2 with
    | Ok _ =>
        request_of <$> issued w (run client uuid (clean_up bucket) w).1
        = ReqList bucket
          :: (ReqDelete bucket
                <$> listing (issued w (run client uuid (clean_up bucket) w).1))
    | Raise _ =>
        request_of <$> issued w (run client uuid (clean_up bucket) w).1
        `prefix_of`
        ReqList bucket
        :: (ReqDelete bucket
              <$> listing (issued w (run client uuid (clean_up bucket) w).1))
    end.
Proof.
  split.
  - unfold clean_up. rewrite run_bind. simpl.
    destruct (list_objects_v2 client bucket (service w)) as [g [response|e]];
      simpl; [|done].
    destruct (for_each_delete_requests client uuid bucket (default [] response)
                (record (EvList bucket (Ok response)) g w)) as [Hd _].
    exact Hd.
  - rewrite run_issued. unfold clean_up. rewrite run_bind, calls_bind. simpl.
    destruct (list_objects_v2 client bucket (service w)) as [g [response|e]];
      simpl; [|done].
    destruct (for_each_delete_requests client uuid bucket (default [] response)
                (record (EvList bucket (Ok response)) g w)) as [_ H].
    destruct (run _ _ _ _) as [w' [[]|e]]; simpl in *.
    + f_equal. exact H.
    + apply prefix_cons. exact H.
Qed.

(** ** The object that is stored *)


(** ** The credentials *)

(** [load_s3_credentials] sets the three variables to the constants of
    the module whatever they held before, leaves every other variable of
    the environment as it was, and calling it again changes nothing. *)
Theorem load_s3_credentials_overrides (environ : gmap string string) :
  load_s3_credentials environ !! "AWS_ACCESS_KEY_ID"%string = Some AWS_ACCESS_KEY_ID
  ∧ load_s3_credentials environ !! "AWS_SECRET_ACCESS_KEY"%string
    = Some AWS_SECRET_ACCESS_KEY
  ∧ load_s3_credentials environ !! "S3_BUCKET_NAME"%string = Some S3_BUCKET_NAME
  ∧ (∀ name : string,
       name ∉ ["AWS_ACCESS_KEY_ID"; "AWS_SECRET_ACCESS_KEY"; "S3_BUCKET_NAME"]%string →
       load_s3_credentials environ !! name = environ !! name)
  ∧ load_s3_credentials (load_s3_credentials environ) = load_s3_credentials environ.
Proof.
  unfold load_s3_credentials. cbv zeta. split_and!.
  - by simplify_map_eq.
  - by simplify_map_eq.
  - by simplify_map_eq.
  - intros name Hname. rewrite !not_elem_of_cons in Hname.
    destruct Hname as (? & ? & ? & _). by rewrite !lookup_insert_ne.
  - apply map_eq. intros name. rewrite !lookup_insert.
    by repeat case_decide.
Qed.

(** ** How many keys are drawn *)

Lemma total_insert bs i b b' :
  bs !! i = Some b → (total (<[i:=b']> bs) + b = total bs + b')%nat.
Proof.
  revert i. induction bs as [|b0 bs IH]; intros [|i] Hi; simplify_eq/=; [lia|].
  specialize (IH _ Hi). unfold total in *. lia.
Qed.

Lemma total_replicate n b : total (replicate n b) = (n * b)%nat.
Proof. unfold total. induction n as [|n IH]; simpl; lia. Qed.

Lemma total_zero bs : Forall (λ b, b = 0%nat) bs → total bs = 0%nat.
Proof. unfold total. induction 1; simpl; lia. Qed.

Ltac draws IH :=
  repeat (simpl;
          match goal with
          | |- ∀ _ : result _, _ => intros [?|[]]
          | |- ∀ _ : Key, _ => intros ?
          end);
  simpl; try done; try apply IH.

Lemma probes_draw fn bucket iterations chunk_size :
  fn ∈ probes → Draws (Z.to_nat iterations) (fn.2 bucket iterations chunk_size).
Proof.
  unfold probes. rewrite !elem_of_cons, elem_of_nil.
  intros [->|[->|[->|[->|[->|[]]]]]]; simpl.
  - unfold read_after_delete. generalize (0, 0) as s.
    induction (Z.to_nat iterations) as [|n IH]; intros [count total]; [done|].
    draws IH.
  - unfold read_after_create. generalize (0, 0) as s.
    induction (Z.to_nat iterations) as [|n IH]; intros [count total]; [done|].
    draws IH.
  - unfold read_after_overwrite. generalize (0, 0) as s.
    induction (Z.to_nat iterations) as [|n IH]; intros [count total]; [done|].
    draws IH.
  - unfold list_after_create. generalize (0, 0) as s.
    induction (Z.to_nat iterations) as [|n IH]; intros [count total]; [done|].
    draws IH.
  - unfold list_after_delete. generalize (0, 0) as s.
    induction (Z.to_nat iterations) as [|n IH]; intros [count total]; [done|].
    draws IH.
Qed.

Section Budget.
Context {G : Type}.
Variable client : Gateway G.
Variable uuid : nat → Key.

Lemma exec_step_drawn (p : Prog Z) (w : World G) :
  drawn (exec_step client uuid p w).1
  = match p with
    | Uuid4 _ => S (drawn w)
    | _ => drawn w
    end.
Proof.
  destruct p; simpl; try done.
  - by destruct (put_object _ _ _ _ _).
  - by destruct (get_object _ _ _ _).
  - by destruct (delete_object _ _ _ _).
  - by destruct (list_objects_v2 _ _ _).
Qed.

Lemma exec_step_draws b (p : Prog Z) (w : World G) :
  is_leaf p = false → Draws b p →
  match p with
  | Uuid4 _ => ∃ b', b = S b' ∧ Draws b' (exec_step client uuid p w).2
  | _ => Draws b (exec_step client uuid p w).2
  end.
Proof.
  intros Hp Hb. destruct p; try done; simpl in *.
  - destruct b as [|b']; [done|]. by exists b'.
  - destruct (put_object _ _ _ _ _). apply Hb.
  - destruct (get_object _ _ _ _). apply Hb.
  - destruct (delete_object _ _ _ _). apply Hb.
  - destruct (list_objects_v2 _ _ _). apply Hb.
Qed.

Lemma budget_ok_insert (bs : list nat) (ws : list thread) i b' t' :
  (∀ j b t, bs !! j = Some b → ws !! j = Some t → budget_ok b t) →
  budget_ok b' t' →
  ∀ j b t, <[i:=b']> bs !! j = Some b → <[i:=t']> ws !! j = Some t → budget_ok b t.
Proof.
  intros Hok Hi j b t Hb Ht. destruct (decide (j = i)) as [->|Hne].
  - pose proof (lookup_lt_Some _ _ _ Hb) as Hlb. rewrite length_insert in Hlb.
    pose proof (lookup_lt_Some _ _ _ Ht) as Hlt. rewrite length_insert in Hlt.
    rewrite list_lookup_insert_eq in Hb by done.
    rewrite list_lookup_insert_eq in Ht by done. by simplify_eq.
  - rewrite list_lookup_insert_ne in Hb by done.
    rewrite list_lookup_insert_ne in Ht by done. eauto.
Qed.

Lemma budget_ok_same (bs : list nat) (ws : list thread) i b' t' :
  (∀ j b t, bs !! j = Some b → ws !! j = Some t → budget_ok b t) →
  bs !! i = Some b' → budget_ok b' t' →
  ∀ j b t, bs !! j = Some b → <[i:=t']> ws !! j = Some t → budget_ok b t.
Proof.
  intros Hok Hb Hi j b t Hj Ht. destruct (decide (j = i)) as [->|Hne].
  - pose proof (lookup_lt_Some _ _ _ Ht) as Hlt. rewrite length_insert in Hlt.
    rewrite list_lookup_insert_eq in Ht by done. by simplify_eq.
  - rewrite list_lookup_insert_ne in Ht by done. eauto.
Qed.

Lemma budget_step c (s : Pool G) i :
  budget_inv c s → budget_inv c (schedule_step client uuid s i).
Proof.
  intros (bs & Hlen & Hok & Hsum).
  destruct (workers s !! i) as [t|] eqn:Hi;
    [|unfold schedule_step; rewrite Hi; by exists bs].
  destruct (lookup_lt_is_Some_2 bs i) as [b Hb];
    [rewrite Hlen; by eapply lookup_lt_Some|].
  pose proof (Hok _ _ _ Hb Hi) as Ht.
  destruct t as [p|r]; [destruct (is_leaf p) eqn:Hp|].
  - exists bs. unfold schedule_step. rewrite Hi.
    destruct p; try done; simpl; rewrite length_insert;
      (split_and!; [done| |done]);
      by eapply budget_ok_same.
  - rewrite (schedule_step_running _ _ _ _ _ Hi Hp). simpl.
    pose proof (exec_step_draws b p (world s) Hp Ht) as Hd.
    pose proof (exec_step_drawn p (world s)) as Hw.
    destruct p; try done.
    + destruct Hd as (b' & -> & Hd). exists (<[i:=b']> bs). cbn [workers world].
      rewrite !length_insert. split_and!; [done|by apply budget_ok_insert|].
      rewrite Hw. pose proof (total_insert bs i (S b') b' Hb). lia.
    + exists bs. cbn [workers world]. rewrite length_insert.
      split_and!; [done| |by rewrite Hw].
      by eapply budget_ok_same.
    + exists bs. cbn [workers world]. rewrite length_insert.
      split_and!; [done| |by rewrite Hw].
      by eapply budget_ok_same.
    + exists bs. cbn [workers world]. rewrite length_insert.
      split_and!; [done| |by rewrite Hw].
      by eapply budget_ok_same.
    + exists bs. cbn [workers world]. rewrite length_insert.
      split_and!; [done| |by rewrite Hw].
      by eapply budget_ok_same.
  - unfold schedule_step. rewrite Hi. simpl. rewrite list_insert_id by done.
    by exists bs.
Qed.

Lemma run_threads_budget fn bucket iterations threads chunk_size sched w :
  fn ∈ probes →
  budget_inv (drawn w + Z.to_nat threads * Z.to_nat iterations)
    (run_threads client uuid fn.2 bucket iterations threads chunk_size sched w).
Proof.
  intros Hfn. apply (run_threads_inv client uuid (budget_inv _)).
  - intros s i. apply budget_step.
  - exists (replicate (Z.to_nat threads) (Z.to_nat iterations)). simpl.
    rewrite !length_replicate, total_replicate. split_and!; [done| |done].
    intros i b t [-> _]%lookup_replicate [-> _]%lookup_replicate. simpl.
    by apply probes_draw.
Qed.

End Budget.

(** The workers of one [run_test] draw at most [threads * iterations]
    UUIDs, one per iteration of each worker and never more, for every
    service and every interleaving; when no worker died they have drawn
    exactly that many.  [run_test] itself draws none. *)
Theorem keys_drawn {G} (client : Gateway G) (uuid : nat → Key)
    fn bucket iterations threads chunk_size sched (w : World G) :
  fn ∈ probes →
  drawn (run_test client uuid fn bucket iterations threads chunk_size sched w).1
  = drawn (world (run_threads client uuid fn.2 bucket iterations threads
                    chunk_size sched w))
  ∧ (drawn (world (run_threads client uuid fn.2 bucket iterations threads
                     chunk_size sched w))
     ≤ drawn w + Z.to_nat threads * Z.to_nat iterations)%nat
  ∧ (Forall (λ t, faulted t = false)
       (workers (run_threads client uuid fn.2 bucket iterations threads
                   chunk_size sched w)) →
     drawn (world (run_threads client uuid fn.2 bucket iterations threads
                     chunk_size sched w))
     = (drawn w + Z.to_nat threads * Z.to_nat iterations)%nat).
Proof.
  intros Hfn.
  destruct (run_threads_budget client uuid fn bucket iterations threads
              chunk_size sched w Hfn) as (bs & Hlen & Hok & Hsum).
  split_and!.
  - unfold run_test. by destruct (truediv _ _).
  - lia.
  - intros Hfault. rewrite total_zero in Hsum; [lia|].
    apply Forall_lookup. intros i b Hb.
    destruct (lookup_lt_is_Some_2
                (workers (run_threads client uuid fn.2 bucket iterations threads
                            chunk_size sched w)) i) as [t Ht];
      [rewrite <- Hlen; by eapply lookup_lt_Some|].
    pose proof (Hok _ _ _ Hb Ht) as Hbt.
    pose proof (Forall_lookup_1 _ _ _ _ Hfault Ht) as Hf.
    destruct (run_threads_stopped client uuid fn.2 bucket iterations threads
                chunk_size sched w t) as [r ->];
      [by eapply list_elem_of_lookup_2|].
    by destruct r.
Qed.

Lemma keys_drawn_witness :
  drawn (run_test consistent_gateway uuid_str
           ("list_after_create"%string, list_after_create)
           "s3consistency" 5 5 1 [2; 0; 4]%nat (empty_world ∅)).1
  = drawn (world (run_threads consistent_gateway uuid_str list_after_create
                    "s3consistency" 5 5 1 [2; 0; 4]%nat (empty_world ∅)))
  ∧ (drawn (world (run_threads consistent_gateway uuid_str list_after_create
                     "s3consistency" 5 5 1 [2; 0; 4]%nat (empty_world ∅)))
     ≤ drawn (empty_world (∅ : gmap Key bytes)) + Z.to_nat 5 * Z.to_nat 5)%nat
  ∧ (Forall (λ t, faulted t = false)
       (workers (run_threads consistent_gateway uuid_str list_after_create
                   "s3consistency" 5 5 1 [2; 0; 4]%nat (empty_world ∅))) →
     drawn (world (run_threads consistent_gateway uuid_str list_after_create
                     "s3consistency" 5 5 1 [2; 0; 4]%nat (empty_world ∅)))
     = (drawn (empty_world (∅ : gmap Key bytes)) + Z.to_nat 5 * Z.to_nat 5)%nat).
Proof.
  apply (keys_drawn consistent_gateway uuid_str
           ("list_after_create"%string, list_after_create)
           "s3consistency" 5 5 1 [2; 0; 4]%nat (empty_world ∅)).
  unfold probes. rewrite !elem_of_cons. tauto.
Defined.

(** ** The bucket after a probe *)



Section Tidy.
Variable uuid : nat → Key.
Hypothesis uuid_inj : Inj (=) (=) uuid.



End Tidy.

Section TidyPool.
Variable uuid : nat → Key.
Hypothesis uuid_inj : Inj (=) (=) uuid.



End TidyPool.



(** ** The percentage *)

Lemma pct_bounds (a v : Z) :
  0 < a → 0 ≤ v ≤ a →
  (0 <= Qred (inject_Z v / inject_Z a * 100))%Q
  ∧ (Qred (inject_Z v / inject_Z a * 100) <= 100)%Q.
Proof.
  intros Ha Hv. rewrite !Qred_correct.
  destruct a as [|p|p]; try lia.
  unfold Qle, Qdiv, Qmult, Qinv, inject_Z. simpl.
  rewrite ?Pos.mul_1_r, ?Z.mul_1_r. split; nia.
Qed.

(** For each probe, any service and any interleaving, with positive
    counts the percentage in the row that [run_test] logs lies between 0
    and 100. *)
Theorem percentage_in_range {G} (client : Gateway G) (uuid : nat → Key)
    fn bucket iterations threads chunk_size sched (w : World G) :
  fn ∈ probes → 0 < iterations → 0 < threads →
  ∃ w' violations row,
    run_test client uuid fn bucket iterations threads chunk_size sched w
    = (w', Ok violations)
    ∧ last (log w') = Some row
    ∧ row_errors row = violations
    ∧ (0 <= row_pct row)%Q ∧ (row_pct row <= 100)%Q.
Proof.
  intros Hfn Hi Ht. rewrite run_test_returns by lia. cbv zeta.
  eexists _, _, _. split; [reflexivity|].
  split; [simpl; by rewrite last_snoc|]. split; [done|].
  apply pct_bounds; [nia|].
  pose proof (run_threads_counts client uuid fn bucket iterations threads
                chunk_size sched w Hfn) as Hc.
  rewrite (sum_perm _ _ (run_threads_errors client uuid fn.2 bucket iterations
                           threads chunk_size sched w)).
  apply sum_bounds in Hc.
  pose proof (counts_length (workers (run_threads client uuid fn.2 bucket
                iterations threads chunk_size sched w))) as Hl.
  rewrite run_threads_length in Hl. nia.
Qed.

Lemma percentage_in_range_witness :
  ∃ w' violations row,
    run_test stale_gateway uuid_str ("read_after_delete"%string, read_after_delete)
      "s3consistency" 5 5 1 [1; 2; 3]%nat (empty_world (∅, ∅))
    = (w', Ok violations)
    ∧ last (log w') = Some row
    ∧ row_errors row = violations
    ∧ (0 <= row_pct row)%Q ∧ (row_pct row <= 100)%Q.
Proof.
  apply (percentage_in_range stale_gateway uuid_str
           ("read_after_delete"%string, read_after_delete)
           "s3consistency" 5 5 1 [1; 2; 3]%nat (empty_world (∅, ∅)));
    [unfold probes; rewrite !elem_of_cons; tauto | lia | lia].
Defined.

(** ** What the counts of the listing probes count *)

Section Listings.
Context {G : Type}.
Variable client : Gateway G.
Variable uuid : nat → Key.
Variable bad : Key → option (list Key) → bool.

Lemma loop_listing_verdicts {St} (count : St → Z) (body : St → Prog St) :
  (∀ s w rest, starts_afresh bad (calls client uuid (body s) w ++ rest)) →
  (∀ s w,
     match (run client uuid (body s) w).2 with
     | Ok s1 =>
         ∀ rest last, starts_afresh bad rest →
           listing_verdicts bad last (calls client uuid (body s) w ++ rest)
           = count s1 - count s + listing_verdicts bad None rest
     | Raise _ => True
     end) →
  ∀ n s w,
    starts_afresh bad (calls client uuid (for_range n body s) w)
    ∧ match (run client uuid (for_range n body s) w).2 with
      | Ok s' =>
          listing_verdicts bad None (calls client uuid (for_range n body s) w)
          = count s' - count s
      | Raise _ => True
      end.
Proof.
  intros Hfresh Hbody. induction n as [|n IH]; intros s w.
  { simpl. split; [done|lia]. }
  change (for_range (S n) body s) with (body s ≫= for_range n body).
  rewrite run_bind, calls_bind. split; [apply Hfresh|].
  specialize (Hbody s w).
  destruct (run client uuid (body s) w) as [w1 [s1|e1]]; cbn [fst snd] in *;
    [|done].
  destruct (IH s1 w1) as [Hrest Hloop].
  destruct (run client uuid (for_range n body s1) w1) as [w2 [s2|e2]];
    cbn [fst snd] in *; [|done].
  rewrite Hbody by done. lia.
Qed.

End Listings.

Ltac probe_listing bad :=
  intros; rewrite run_issued;
  match goal with
  | |- context [run ?client ?uuid (?probe ?bucket ?iterations ?chunk_size) ?w] =>
      unfold probe; rewrite run_bind, calls_bind;
      match goal with
      | |- context [for_range ?n ?body ?s] =>
          let H1 := fresh "H" in
          let H2 := fresh "H" in
          assert (∀ s0 w0 rest,
                    starts_afresh bad (calls client uuid (body s0) w0 ++ rest)) as H1
            by (intros [??] ? ? ? ?; simpl; by destruct (put_object _ _ _ _ _));
          assert (∀ s0 w0,
                    match (run client uuid (body s0) w0).2 with
                    | Ok s1 =>
                        ∀ rest last, starts_afresh bad rest →
                          listing_verdicts bad last
                            (calls client uuid (body s0) w0 ++ rest)
                          = s1.1 - s0.1 + listing_verdicts bad None rest
                    | Raise _ => True
                    end) as H2
            by (intros [??] ?; answer_calls; try done;
                intros rest last Hrest; simpl;
                rewrite (Hrest _ None); unfold unlisted;
                destruct (found_in _ _); simpl; lia);
          destruct (loop_listing_verdicts client uuid bad fst body H1 H2 n s w)
            as [_ Hl];
          destruct (run client uuid (for_range n body s) w) as [? [[??]|?]];
          simpl in *; [rewrite app_nil_r; lia|done]
      end
  end.

(** The count that [list_after_create] returns is the number of its
    listings that lack the key put just before. *)
Theorem list_after_create_verdicts {G} (client : Gateway G) (uuid : nat → Key)
    bucket iterations chunk_size (w : World G) :
  match (run client uuid (list_after_create bucket iterations chunk_size) w).2 with
  | Ok count =>
      count = listing_verdicts unlisted None
                (issued w (run client uuid
                             (list_after_create bucket iterations chunk_size) w).1)
  | Raise _ => True
  end.
Proof. probe_listing unlisted. Qed.

(** The count that [list_after_delete] returns is the number of its
    listings that still hold the key put, and deleted, just before. *)
Theorem list_after_delete_verdicts {G} (client : Gateway G) (uuid : nat → Key)
    bucket iterations chunk_size (w : World G) :
  match (run client uuid (list_after_delete bucket iterations chunk_size) w).2 with
  | Ok count =>
      count = listing_verdicts found_in None
                (issued w (run client uuid
                             (list_after_delete bucket iterations chunk_size) w).1)
  | Raise _ => True
  end.
Proof. probe_listing found_in. Qed.
